(** * dockerproxy: the docker-proxy registry and connection filter

    A shallow embedding of [pkg/process/dockerproxy/dockerproxy.go].

    The Go code keeps two maps of pointers to [proxy] structs, and mutates
    the [ip] field of such a struct in place while filtering.  The pointers
    are modelled by locations in an explicit store ([heap]), so that a
    record shared by both maps is updated through both, and a record that
    only one map still names is not. *)

From Stdlib Require Import ZArith Ascii String Lia.
From stdpp Require Import gmap strings list fin_maps.

Local Open Scope string_scope.
Local Open Scope list_scope.
Local Open Scope Z_scope.

(** ** Data model *)

(** [model.Addr] of the agent payload.  The code reads and writes the
    fields [Ip] and [Port] only, and builds its map keys with
    [model.Addr{Ip: ..., Port: ...}]. *)
Record Addr := mkAddr { Ip : string; Port : Z }.

(** [model.Connection]: the owning pid and the two endpoints. *)
Record Connection := mkConnection { cPid : Z; Laddr : Addr; Raddr : Addr }.

(** [process.FilledProcess]: the fields the detection reads. *)
Record FilledProcess := mkProcess { pPid : Z; Cmdline : list string }.

(** [type proxy struct { pid int32; ip string; target model.Addr }] *)
Record proxy := mkProxy { pid : Z; ip : string; target : Addr }.

#[global] Instance Addr_eq_dec : EqDecision Addr.
Proof. solve_decision. Defined.

#[global] Instance Addr_countable : Countable Addr.
Proof.
  refine (inj_countable' (λ a, (Ip a, Port a)) (λ q, mkAddr q.1 q.2) _).
  by intros [].
Defined.

#[global] Instance Connection_eq_dec : EqDecision Connection.
Proof. solve_decision. Defined.

#[global] Instance proxy_eq_dec : EqDecision proxy.
Proof. solve_decision. Defined.

(** A pointer to a [proxy] is a location of the store. *)
Abbreviation loc := nat (only parsing).

(** [type Filter struct { proxyByPID map[int32]*proxy;
                          proxyByTarget map[model.Addr]*proxy }]
    together with the store the pointers of both maps point into. *)
Record Filter := mkFilter {
  heap : list proxy;
  proxyByPID : gmap Z nat;
  proxyByTarget : gmap Addr nat
}.

(** Every pointer kept in the maps is allocated: the states the Go program
    can be in.  The lookups below go through the store, so the operations
    are total on every model state. *)
Definition wf (f : Filter) : Prop :=
  (∀ k l, proxyByPID f !! k = Some l → (l < length (heap f))%nat) ∧
  (∀ a l, proxyByTarget f !! a = Some l → (l < length (heap f))%nat).

(** [p, ok := f.proxyByPID[k]] followed by a dereference of [p]. *)
Definition lookupByPID (f : Filter) (k : Z) : option proxy :=
  l ← proxyByPID f !! k; heap f !! l.

(** [p, ok := f.proxyByTarget[a]] followed by a dereference of [p]. *)
Definition lookupByTarget (f : Filter) (a : Addr) : option proxy :=
  l ← proxyByTarget f !! a; heap f !! l.

(** ** The library functions the detection calls *)

(** [int32(port)]: the conversion of a Go [int] keeps the low 32 bits. *)
Definition int32 (n : Z) : Z := (n + 2 ^ 31) mod 2 ^ 32 - 2 ^ 31.

Definition isDigit (c : ascii) : bool :=
  (48 <=? nat_of_ascii c)%nat && (nat_of_ascii c <=? 57)%nat.

Definition digitVal (c : ascii) : Z := Z.of_nat (nat_of_ascii c) - 48.

(** The digits of a decimal numeral, most significant first. *)
Fixpoint parseDigits (s : string) (acc : Z) : option Z :=
  match s with
  | EmptyString => Some acc
  | String c s' =>
      if isDigit c then parseDigits s' (10 * acc + digitVal c) else None
  end.

(** [strconv.Atoi] of Go's library, on a platform whose [int] has 64 bits:
    an optional sign, then at least one decimal digit and nothing else; a
    value outside the range of [int] is an error as well.  [None] stands
    for [err != nil]. *)
Definition Atoi (s : string) : option Z :=
  match s with
  | EmptyString => None
  | String c rest =>
      if decide (c = "-"%char) then
        match rest with
        | EmptyString => None
        | _ => n ← parseDigits rest 0;
               if n <=? 2 ^ 63 then Some (- n) else None
        end
      else if decide (c = "+"%char) then
        match rest with
        | EmptyString => None
        | _ => n ← parseDigits rest 0;
               if n <? 2 ^ 63 then Some n else None
        end
      else
        n ← parseDigits s 0;
        if n <? 2 ^ 63 then Some n else None
  end.

(** Modelled from the spec: the source calls [strings.EndsWith], which the
    package [strings] does not have and the file does not import; the spec
    reads the test as "the first argument ends with the known proxy
    executable name", which is the suffix test written out here. *)
Definition EndsWith (s suffix : string) : bool :=
  (String.length suffix <=? String.length s)%nat &&
  String.eqb
    (substring (String.length s - String.length suffix)
               (String.length suffix) s)
    suffix.

(** Modelled from the spec: the source compares the string field
    [proxy.target.Ip] with the number [0] in [proxy.target.Ip == 0]; the
    spec reads the test as "target IP unset", and an unset Go string is the
    empty string.  Read as a comparison that no string passes, the test
    would reject the same records: the first half of the condition already
    rejects the empty string. *)
Definition ipIsZero (s : string) : bool := bool_decide (s = "").

(** ** Detection: [extractProxyInfo] *)

Definition setTargetIp (p : proxy) (v : string) : proxy :=
  mkProxy (pid p) (ip p) (mkAddr v (Port (target p))).

Definition setTargetPort (p : proxy) (n : Z) : proxy :=
  mkProxy (pid p) (ip p) (mkAddr (Ip (target p)) n).

(** The loop [for i := 0; i < len(p.Cmdline)-1; i++], with [n] the number
    of iterations still to run; [None] is the [return nil] of the loop.
    The [switch] is on the argument at index [i] (the source writes
    [p.Cmdline(i)]), the value is [p.Cmdline[i+1]]. *)
Fixpoint scanArgs (cmdline : list string) (n : nat) (i : nat) (pr : proxy)
  : option proxy :=
  match n with
  | O => Some pr
  | S n' =>
      match cmdline !! i, cmdline !! S i with
      | Some a, Some v =>
          if decide (a = "-container-ip") then
            scanArgs cmdline n' (S i) (setTargetIp pr v)
          else if decide (a = "-container-port") then
            match Atoi v with
            | None => None
            | Some port => scanArgs cmdline n' (S i) (setTargetPort pr (int32 port))
            end
          else scanArgs cmdline n' (S i) pr
      | _, _ => Some pr
      end
  end.

Definition extractProxyInfo (p : FilledProcess) : option proxy :=
  match Cmdline p with
  | [] => None
  | arg0 :: _ =>
      if negb (EndsWith arg0 "docker-proxy") then None
      else
        match scanArgs (Cmdline p) (length (Cmdline p) - 1) 0
                       (mkProxy (pPid p) "" (mkAddr "" 0)) with
        | None => None
        | Some pr =>
            if bool_decide (Ip (target pr) = "") || ipIsZero (Ip (target pr))
            then None
            else Some pr
        end
  end.

(** ** The registry: [NewFilter] and [LoadProxies] *)

(** One iteration of the loop of [LoadProxies]: a detected proxy is
    allocated and stored in both maps under the same pointer. *)
Definition loadOne (f : Filter) (p : FilledProcess) : Filter :=
  match extractProxyInfo p with
  | None => f
  | Some pr =>
      let l := length (heap f) in
      mkFilter (heap f ++ [pr])
               (<[pid pr := l]> (proxyByPID f))
               (<[target pr := l]> (proxyByTarget f))
  end.

(** [LoadProxies]; [procs] lists the values of the process map in the
    order in which [range] yields them (the keys are not used). *)
Definition LoadProxies (f : Filter) (procs : list FilledProcess) : Filter :=
  foldl loadOne f procs.

Definition emptyFilter : Filter := mkFilter [] ∅ ∅.

(** [NewFilter]; the argument is the result of [process.AllProcesses()],
    [None] when it returned an error. *)
Definition NewFilter (procs : option (list FilledProcess)) : Filter :=
  match procs with
  | Some ps => LoadProxies emptyFilter ps
  | None => emptyFilter
  end.

(** ** The filter: [discoverProxyIP], [isProxied] and [Filter] *)

Definition setIp (p : proxy) (v : string) : proxy :=
  mkProxy (pid p) v (target p).

Definition discoverProxyIP (p : proxy) (c : Connection) : proxy :=
  if bool_decide (Ip (Laddr c) = Ip (target p)) &&
     bool_decide (Port (Laddr c) = Port (target p))
  then setIp p (Ip (Raddr c))
  else if bool_decide (Ip (Raddr c) = Ip (target p)) &&
          bool_decide (Port (Raddr c) = Port (target p))
  then setIp p (Ip (Laddr c))
  else p.

Definition isProxied (f : Filter) (c : Connection) : bool :=
  match lookupByTarget f (mkAddr (Ip (Laddr c)) (Port (Laddr c))) with
  | Some p => bool_decide (ip p = Ip (Raddr c))
  | None =>
      match lookupByTarget f (mkAddr (Ip (Raddr c)) (Port (Raddr c))) with
      | Some p => bool_decide (ip p = Ip (Laddr c))
      | None => false
      end
  end.

(** Lines 67-72: the record of the connection's pid, when there is one and
    its [ip] is still empty, is updated in place. *)
Definition discover (f : Filter) (c : Connection) : Filter :=
  match proxyByPID f !! cPid c with
  | Some l =>
      match heap f !! l with
      | Some p =>
          if bool_decide (ip p = "")
          then mkFilter (<[l := discoverProxyIP p c]> (heap f))
                        (proxyByPID f) (proxyByTarget f)
          else f
      | None => f
      end
  | None => f
  end.

(** The loop of [Filter] over [original], appending to [filtered]. *)
Fixpoint filterLoop (f : Filter) (original filtered : list Connection)
  : Filter * list Connection :=
  match original with
  | [] => (f, filtered)
  | c :: rest =>
      let f' := discover f c in
      if isProxied f' c then filterLoop f' rest filtered
      else filterLoop f' rest (filtered ++ [c])
  end.

(** The method [Filter] of the type [Filter]: the registry after the pass
    and the new [payload.Conns]. *)
Definition FilterConns (f : Filter) (original : list Connection)
  : Filter * list Connection :=
  filterLoop f original [].

(** The connections a pass keeps when no discovery happens during it. *)
Definition kept (f : Filter) (conns : list Connection) : list Connection :=
  filter (λ c, isProxied f c = false) conns.

(** The detected proxies of a snapshot, in the order of the snapshot. *)
Definition detected (procs : list FilledProcess) : list proxy :=
  omap extractProxyInfo procs.

(** The index [LoadProxies] builds: the records [rs] are allocated at
    [base], [base + 1], ... and each is stored under its key. *)
Fixpoint indexFrom `{Countable K} (key : proxy → K) (m : gmap K nat)
  (base : nat) (rs : list proxy) : gmap K nat :=
  match rs with
  | [] => m
  | r :: rs' => indexFrom key (<[key r := base]> m) (S base) rs'
  end.

(** The registry only grows in knowledge: the maps and the [pid] and
    [target] of every record stay, and a known [ip] stays as it is. *)
Definition refines (f g : Filter) : Prop :=
  proxyByPID g = proxyByPID f ∧
  proxyByTarget g = proxyByTarget f ∧
  length (heap g) = length (heap f) ∧
  ∀ l p, heap f !! l = Some p →
    ∃ q, heap g !! l = Some q ∧ pid q = pid p ∧ target q = target p ∧
         (ip p ≠ "" → ip q = ip p).

(** A connection seen from its other end. *)
Definition swapEnds (c : Connection) : Connection :=
  mkConnection (cPid c) (Raddr c) (Laddr c).

(** The registries a program gets by calling [NewFilter] and then
    [LoadProxies] and [Filter] any number of times. *)
Inductive reachable : Filter → Prop :=
  | reach_new procs : reachable (NewFilter procs)
  | reach_load f procs : reachable f → reachable (LoadProxies f procs)
  | reach_filter f conns : reachable f → reachable (FilterConns f conns).1.

(** The last record of a snapshot that has the key [k]. *)
Definition lastWith `{EqDecision K} (key : proxy → K) (k : K)
  (rs : list proxy) : option proxy :=
  last (filter (λ r, key r = k) rs).

(** ** Sample data *)

(** A docker-proxy forwarding to 10.0.0.5:80, owned by pid 100. *)
Definition procA : FilledProcess :=
  mkProcess 100 ["/usr/bin/docker-proxy"; "-container-ip"; "10.0.0.5";
                 "-container-port"; "80"].

(** Another docker-proxy, forwarding to 10.0.0.6:8080, owned by pid 200. *)
Definition procB : FilledProcess :=
  mkProcess 200 ["/usr/bin/docker-proxy"; "-container-ip"; "10.0.0.6";
                 "-container-port"; "8080"].

(** A second docker-proxy for the target of [procA], owned by pid 300. *)
Definition procC : FilledProcess :=
  mkProcess 300 ["/usr/bin/docker-proxy"; "-container-ip"; "10.0.0.5";
                 "-container-port"; "80"].

(** A docker-proxy command line with a negative container port. *)
Definition procNeg : FilledProcess :=
  mkProcess 100 ["/usr/bin/docker-proxy"; "-container-ip"; "10.0.0.5";
                 "-container-port"; "-80"].

Definition targetA : Addr := mkAddr "10.0.0.5" 80.
Definition recA : proxy := mkProxy 100 "" targetA.
Definition recB : proxy := mkProxy 200 "" (mkAddr "10.0.0.6" 8080).
Definition recC : proxy := mkProxy 300 "" targetA.

(** The registry right after start-up on a host that runs [procA]. *)
Definition regA : Filter := NewFilter (Some [procA]).

(** The registry of the end-to-end example of the spec: one proxy, pid
    100, target 10.0.0.5:80, address 172.17.0.2 already known. *)
Definition regKnown : Filter :=
  mkFilter [mkProxy 100 "172.17.0.2" targetA] {[ 100 := 0%nat ]}
           {[ targetA := 0%nat ]}.

(** A connection to the target of [procA] owned by an unrelated pid. *)
Definition connForeign : Connection :=
  mkConnection 999 targetA (mkAddr "9.9.9.9" 1234).

(** The same endpoints, owned by the proxy process itself. *)
Definition connOwn : Connection :=
  mkConnection 100 targetA (mkAddr "9.9.9.9" 1234).

(** The registry [regA] once the address 9.9.9.9 of its proxy is known. *)
Definition regLearned : Filter := (FilterConns regA [connOwn]).1.

(** ** The filter loop *)

Lemma filterLoop_acc f original filtered :
  filterLoop f original filtered =
  ((filterLoop f original []).1, filtered ++ (filterLoop f original []).2).
Proof.
  revert f filtered.
  induction original as [|c rest IH]; intros f filtered; simpl.
  - by rewrite app_nil_r.
  - destruct (isProxied (discover f c) c).
    + apply IH.
    + rewrite (IH _ (filtered ++ [c])), (IH _ [c]). simpl.
      by rewrite <- app_assoc.
Qed.

Lemma FilterConns_nil f : FilterConns f [] = (f, []).
Proof. reflexivity. Qed.

Lemma FilterConns_cons f c rest :
  FilterConns f (c :: rest) =
  ((FilterConns (discover f c) rest).1,
   if isProxied (discover f c) c
   then (FilterConns (discover f c) rest).2
   else c :: (FilterConns (discover f c) rest).2).
Proof.
  unfold FilterConns. simpl.
  destruct (isProxied (discover f c) c).
  - by destruct (filterLoop (discover f c) rest []).
  - by rewrite filterLoop_acc.
Qed.

Lemma FilterConns_app f xs ys :
  FilterConns f (xs ++ ys) =
  ((FilterConns (FilterConns f xs).1 ys).1,
   (FilterConns f xs).2 ++ (FilterConns (FilterConns f xs).1 ys).2).
Proof.
  revert f. induction xs as [|c xs IH]; intros f.
  - simpl. by destruct (FilterConns f ys).
  - rewrite <- app_comm_cons, !FilterConns_cons, IH. simpl.
    by destruct (isProxied (discover f c) c).
Qed.

(** ** Discovery leaves the maps alone and touches one record *)

Lemma discover_proxyByPID f c : proxyByPID (discover f c) = proxyByPID f.
Proof.
  unfold discover.
  destruct (proxyByPID f !! cPid c) as [l|]; [|done].
  destruct (heap f !! l) as [p|]; [|done].
  by case_bool_decide.
Qed.

Lemma discover_proxyByTarget f c :
  proxyByTarget (discover f c) = proxyByTarget f.
Proof.
  unfold discover.
  destruct (proxyByPID f !! cPid c) as [l|]; [|done].
  destruct (heap f !! l) as [p|]; [|done].
  by case_bool_decide.
Qed.

Lemma discover_length f c : length (heap (discover f c)) = length (heap f).
Proof.
  unfold discover.
  destruct (proxyByPID f !! cPid c) as [l|]; [|done].
  destruct (heap f !! l) as [p|]; [|done].
  case_bool_decide; [|done]. simpl. by rewrite length_insert.
Qed.

Lemma discoverProxyIP_pid p c : pid (discoverProxyIP p c) = pid p.
Proof. unfold discoverProxyIP. by repeat case_match. Qed.

Lemma discoverProxyIP_target p c : target (discoverProxyIP p c) = target p.
Proof. unfold discoverProxyIP. by repeat case_match. Qed.

Lemma proxy_eq (p q : proxy) :
  pid p = pid q → ip p = ip q → target p = target q → p = q.
Proof. destruct p, q. simpl. congruence. Qed.

(** A discovery that leaves the [ip] empty has changed nothing. *)
Lemma discoverProxyIP_empty p c :
  ip p = "" → ip (discoverProxyIP p c) = "" → discoverProxyIP p c = p.
Proof.
  intros Hp Hq. apply proxy_eq.
  - apply discoverProxyIP_pid.
  - congruence.
  - apply discoverProxyIP_target.
Qed.

(** What the discovery step does to the record at [l]. *)
Lemma discover_lookup f c l p :
  heap f !! l = Some p →
  heap (discover f c) !! l =
    Some (if bool_decide (proxyByPID f !! cPid c = Some l) &&
             bool_decide (ip p = "")
          then discoverProxyIP p c else p).
Proof.
  intros Hl. unfold discover.
  destruct (proxyByPID f !! cPid c) as [l'|] eqn:Hk.
  - destruct (decide (l' = l)) as [->|Hne].
    + rewrite Hl, (bool_decide_eq_true_2 (Some l = Some l)) by done. simpl.
      case_bool_decide; simpl; [|done].
      apply list_lookup_insert_eq. by eapply lookup_lt_Some.
    + rewrite (bool_decide_eq_false_2 (Some l' = Some l)) by congruence.
      simpl. destruct (heap f !! l') as [p'|]; [|done].
      case_bool_decide; [|done]. simpl.
      by rewrite list_lookup_insert_ne.
  - by rewrite bool_decide_eq_false_2.
Qed.

Lemma refines_refl f : refines f f.
Proof. repeat split. intros l p Hl. exists p. eauto. Qed.

Lemma refines_trans f g h : refines f g → refines g h → refines f h.
Proof.
  intros (Hp1 & Ht1 & Hn1 & H1) (Hp2 & Ht2 & Hn2 & H2).
  repeat split; try congruence.
  intros l p Hl.
  destruct (H1 l p Hl) as (q & Hq & Hqp & Hqt & Hqi).
  destruct (H2 l q Hq) as (r & Hr & Hrp & Hrt & Hri).
  exists r. repeat split; try congruence.
  intros Hne. rewrite Hri; rewrite Hqi; congruence.
Qed.

Lemma discover_refines f c : refines f (discover f c).
Proof.
  split; [apply discover_proxyByPID|].
  split; [apply discover_proxyByTarget|].
  split; [apply discover_length|].
  intros l p Hl. rewrite (discover_lookup f c l p Hl).
  eexists; split; [done|].
  destruct (bool_decide (proxyByPID f !! cPid c = Some l)); simpl; [|done].
  case_bool_decide as Hip; [|done].
  split; [apply discoverProxyIP_pid|].
  split; [apply discoverProxyIP_target|]. congruence.
Qed.

Lemma FilterConns_refines f conns : refines f (FilterConns f conns).1.
Proof.
  revert f. induction conns as [|c rest IH]; intros f.
  - apply refines_refl.
  - rewrite FilterConns_cons. simpl.
    eapply refines_trans; [apply discover_refines | apply IH].
Qed.

(** A discovery step that would rewrite a record with itself is void. *)
Lemma discover_fix f c :
  (∀ l p, proxyByPID f !! cPid c = Some l → heap f !! l = Some p →
          ip p = "" → discoverProxyIP p c = p) →
  discover f c = f.
Proof.
  intros H. unfold discover.
  destruct (proxyByPID f !! cPid c) as [l|] eqn:Hk; [|done].
  destruct (heap f !! l) as [p|] eqn:Hl; [|done].
  case_bool_decide as Hip; [|done].
  rewrite (H l p eq_refl Hl Hip), list_insert_id by done.
  by destruct f.
Qed.

(** Once a pass is over, none of its connections can teach the registry
    anything more. *)
Lemma FilterConns_stable f conns c :
  c ∈ conns → discover (FilterConns f conns).1 c = (FilterConns f conns).1.
Proof.
  revert f. induction conns as [|c0 rest IH]; intros f Hin.
  - by apply elem_of_nil in Hin.
  - rewrite FilterConns_cons. simpl.
    apply elem_of_cons in Hin as [->|Hin]; [|by apply IH].
    pose proof (FilterConns_refines (discover f c0) rest) as (Hp & _ & Hn & Hr).
    apply discover_fix. intros l p1 Hk Hl1 Hip1.
    rewrite Hp, discover_proxyByPID in Hk.
    destruct (heap f !! l) as [p0|] eqn:Hl0.
    2:{ apply lookup_ge_None in Hl0. apply lookup_lt_Some in Hl1.
        rewrite Hn, discover_length in Hl1. lia. }
    pose proof (discover_lookup f c0 l p0 Hl0) as Hg.
    rewrite (bool_decide_eq_true_2 _ Hk) in Hg. simpl in Hg.
    destruct (Hr _ _ Hg) as (q & Hq & Hqp & Hqt & Hqi).
    rewrite Hl1 in Hq. injection Hq as <-.
    case_bool_decide as Hip0.
    + destruct (decide (ip (discoverProxyIP p0 c0) = "")) as [He|Hne].
      * assert (p1 = p0) as ->; [|by apply discoverProxyIP_empty].
        rewrite (discoverProxyIP_empty p0 c0 Hip0 He) in Hqp, Hqt.
        apply proxy_eq; congruence.
      * specialize (Hqi Hne). congruence.
    + specialize (Hqi Hip0). congruence.
Qed.

(** A pass during which no record changes is a plain [filter]. *)
Lemma FilterConns_pure f conns :
  (∀ c, c ∈ conns → discover f c = f) →
  FilterConns f conns = (f, kept f conns).
Proof.
  induction conns as [|c rest IH]; intros H; [done|].
  rewrite FilterConns_cons, (H c) by apply list_elem_of_here.
  rewrite IH by (intros c' Hc'; apply H; by apply list_elem_of_further).
  simpl. unfold kept. rewrite filter_cons.
  destruct (isProxied f c); by case_decide.
Qed.

Lemma kept_sublist f conns : kept f conns `sublist_of` conns.
Proof. apply sublist_filter. Qed.

Lemma kept_elem_of f conns c : c ∈ kept f conns → c ∈ conns.
Proof. unfold kept. rewrite list_elem_of_filter. tauto. Qed.

Lemma kept_idemp f conns : kept f (kept f conns) = kept f conns.
Proof.
  unfold kept. induction conns as [|c rest IH]; [done|].
  rewrite filter_cons. case_decide as Hc; [|done].
  rewrite filter_cons, decide_True by done. by rewrite IH.
Qed.

Lemma FilterConns_sublist f conns : (FilterConns f conns).2 `sublist_of` conns.
Proof.
  revert f. induction conns as [|c rest IH]; intros f; [done|].
  rewrite FilterConns_cons. simpl.
  destruct (isProxied (discover f c) c).
  - by apply sublist_cons.
  - by apply sublist_skip.
Qed.

Lemma FilterConns_elem_of f conns c :
  c ∈ (FilterConns f conns).2 → c ∈ conns.
Proof. intros H. eapply elem_of_sublist; [done | apply FilterConns_sublist]. Qed.

(** ** Loading *)

Section index.
Context `{Countable K} (key : proxy → K).

Lemma indexFrom_notin m base rs k :
  k ∉ key <$> rs → indexFrom key m base rs !! k = m !! k.
Proof.
  revert m base. induction rs as [|r rs IH]; intros m base Hk; [done|].
  rewrite fmap_cons in Hk. apply not_elem_of_cons in Hk as [Hne Hk].
  simpl. rewrite IH by done. by rewrite lookup_insert_ne.
Qed.

Lemma indexFrom_app m base rs1 rs2 :
  indexFrom key m base (rs1 ++ rs2)
  = indexFrom key (indexFrom key m base rs1) (base + length rs1) rs2.
Proof.
  revert m base. induction rs1 as [|r rs1 IH]; intros m base; simpl.
  - by rewrite Nat.add_0_r.
  - rewrite IH. f_equal. lia.
Qed.

(** The record stored under a key is the last one of the snapshot that
    has this key. *)
Lemma indexFrom_last m base rs1 r rs2 :
  key r ∉ key <$> rs2 →
  indexFrom key m base (rs1 ++ r :: rs2) !! key r
  = Some (base + length rs1)%nat.
Proof.
  intros Hk. rewrite indexFrom_app. simpl.
  rewrite indexFrom_notin by done. apply lookup_insert_eq.
Qed.

Lemma last_with_key rs k :
  k ∈ key <$> rs →
  ∃ rs1 r rs2, rs = rs1 ++ r :: rs2 ∧ key r = k ∧ k ∉ key <$> rs2.
Proof.
  induction rs as [|r0 rs IH]; intros Hk.
  - by apply elem_of_nil in Hk.
  - destruct (decide (k ∈ key <$> rs)) as [Hin|Hnin].
    + destruct (IH Hin) as (rs1 & r & rs2 & -> & Hr & Hn).
      by exists (r0 :: rs1), r, rs2.
    + rewrite fmap_cons in Hk. apply elem_of_cons in Hk as [->|Hk]; [|done].
      by exists [], r0, rs.
Qed.
End index.

Lemma LoadProxies_cons f p procs :
  LoadProxies f (p :: procs) = LoadProxies (loadOne f p) procs.
Proof. reflexivity. Qed.

(** [LoadProxies] in closed form: the detected records are appended to the
    store, and both maps are extended with them; nothing is removed. *)
Lemma LoadProxies_closed f procs :
  LoadProxies f procs =
  mkFilter (heap f ++ detected procs)
           (indexFrom pid (proxyByPID f) (length (heap f)) (detected procs))
           (indexFrom target (proxyByTarget f) (length (heap f))
                      (detected procs)).
Proof.
  revert f. induction procs as [|p procs IH]; intros f.
  - unfold detected. simpl. rewrite app_nil_r. by destruct f.
  - rewrite LoadProxies_cons, IH. unfold detected, loadOne. simpl.
    destruct (extractProxyInfo p) as [r|]; [|done]. simpl.
    rewrite <- app_assoc, length_app. simpl.
    by rewrite Nat.add_1_r.
Qed.

Lemma LoadProxies_heap_old f procs l p :
  heap f !! l = Some p → heap (LoadProxies f procs) !! l = Some p.
Proof.
  intros Hl. rewrite LoadProxies_closed. simpl. by apply lookup_app_l_Some.
Qed.

Lemma LoadProxies_heap_new f procs i :
  heap (LoadProxies f procs) !! (length (heap f) + i)%nat
  = detected procs !! i.
Proof.
  rewrite LoadProxies_closed. simpl.
  rewrite lookup_app_r by lia. f_equal. lia.
Qed.

(** ** Reachable states keep every pointer allocated *)

Lemma wf_emptyFilter : wf emptyFilter.
Proof. split; intros k l; simpl; by rewrite lookup_empty. Qed.

Lemma wf_loadOne f p : wf f → wf (loadOne f p).
Proof.
  intros [Hp Ht]. unfold loadOne.
  destruct (extractProxyInfo p) as [r|]; [|done].
  split; intros k l; simpl; rewrite length_app; simpl;
    (destruct (decide (k = pid r)) as [->|] || destruct (decide (k = target r)) as [->|]).
  all: rewrite ?lookup_insert_eq, ?lookup_insert_ne by done.
  all: try (intros [= <-]; lia).
  - intros Hl%Hp. lia.
  - intros Hl%Ht. lia.
Qed.

Lemma wf_LoadProxies f procs : wf f → wf (LoadProxies f procs).
Proof.
  revert f. induction procs as [|p procs IH]; intros f Hf; [done|].
  rewrite LoadProxies_cons. by apply IH, wf_loadOne.
Qed.

Lemma wf_refines f g : refines f g → wf f → wf g.
Proof.
  intros (Hp & Ht & Hn & _) [H1 H2].
  split; intros k l; rewrite ?Hp, ?Ht, Hn; eauto.
Qed.

Lemma wf_FilterConns f conns : wf f → wf (FilterConns f conns).1.
Proof. apply wf_refines, FilterConns_refines. Qed.

(** On such states a lookup fails only when the map has no entry. *)
Lemma wf_lookupByPID_None f k :
  wf f → lookupByPID f k = None ↔ proxyByPID f !! k = None.
Proof.
  intros [Hp _]. unfold lookupByPID.
  destruct (proxyByPID f !! k) as [l|] eqn:Hk; simpl; [|done].
  split; [|done]. intros Hl%lookup_ge_None. specialize (Hp _ _ Hk). lia.
Qed.

Lemma wf_lookupByTarget_None f a :
  wf f → lookupByTarget f a = None ↔ proxyByTarget f !! a = None.
Proof.
  intros [_ Ht]. unfold lookupByTarget.
  destruct (proxyByTarget f !! a) as [l|] eqn:Hk; simpl; [|done].
  split; [|done]. intros Hl%lookup_ge_None. specialize (Ht _ _ Hk). lia.
Qed.

(** ** Detection *)

Lemma string_length_append (s t : string) :
  String.length (s +:+ t) = (String.length s + String.length t)%nat.
Proof. induction s as [|c s IH]; simpl; [done | by rewrite IH]. Qed.

Lemma substring_all (s : string) : substring 0 (String.length s) s = s.
Proof. induction s as [|c s IH]; simpl; [done | by rewrite IH]. Qed.

Lemma substring_append_r (s t : string) :
  substring (String.length s) (String.length t) (s +:+ t) = t.
Proof. induction s as [|c s IH]; simpl; [apply substring_all | done]. Qed.

Lemma substring_split (s : string) (n : nat) :
  (n ≤ String.length s)%nat →
  s = substring 0 n s +:+ substring n (String.length s - n) s.
Proof.
  revert n. induction s as [|c s IH]; intros n Hn; simpl in *.
  - by destruct n.
  - destruct n as [|n]; simpl.
    + by rewrite substring_all.
    + change (String c s = String c (substring 0 n s +:+
                                    substring n (String.length s - n) s)).
      f_equal. apply IH. lia.
Qed.

(** [EndsWith] is the suffix test. *)
Lemma EndsWith_spec (s suffix : string) :
  EndsWith s suffix = true ↔ ∃ pre, s = pre +:+ suffix.
Proof.
  unfold EndsWith. rewrite andb_true_iff, Nat.leb_le, String.eqb_eq. split.
  - intros [Hle Hs].
    exists (substring 0 (String.length s - String.length suffix) s).
    pose proof (substring_split s (String.length s - String.length suffix))
      as Hsplit.
    replace (String.length s - (String.length s - String.length suffix))%nat
      with (String.length suffix) in Hsplit by lia.
    rewrite Hs in Hsplit. apply Hsplit. lia.
  - intros [pre ->]. rewrite string_length_append. split; [lia|].
    replace (String.length pre + String.length suffix - String.length suffix)%nat
      with (String.length pre) by lia.
    apply substring_append_r.
Qed.

Lemma EndsWith_not_flag (a : string) :
  EndsWith a "docker-proxy" = true →
  a ≠ "-container-ip" ∧ a ≠ "-container-port".
Proof. intros Ha. split; intros ->; vm_compute in Ha; discriminate. Qed.

Lemma scanArgs_pid_ip cmdline n i pr r :
  scanArgs cmdline n i pr = Some r → pid r = pid pr ∧ ip r = ip pr.
Proof.
  revert i pr. induction n as [|n IH]; intros i pr; simpl.
  - by intros [= ->].
  - repeat case_match; try (by intros [= ->]); try done;
      intros Hr; by destruct (IH _ _ Hr).
Qed.

(** Every value of a [-container-port] flag the loop passes has parsed. *)
Lemma scanArgs_port_parsed cmdline n i pr r j v :
  scanArgs cmdline n i pr = Some r →
  (i ≤ j < i + n)%nat →
  cmdline !! j = Some "-container-port" → cmdline !! S j = Some v →
  is_Some (Atoi v).
Proof.
  revert i pr. induction n as [|n IH]; intros i pr Hr Hj Hflag Hv; [lia|].
  simpl in Hr.
  destruct (decide (j = i)) as [->|Hne].
  - rewrite Hflag, Hv in Hr.
    rewrite decide_False, decide_True in Hr by done.
    by destruct (Atoi v).
  - apply lookup_lt_Some in Hv as Hlen.
    destruct (cmdline !! i) eqn:Hi; [|apply lookup_ge_None in Hi; lia].
    destruct (cmdline !! S i) eqn:Hsi; [|apply lookup_ge_None in Hsi; lia].
    revert Hr; repeat case_match; try done; intros Hr.
    all: eapply IH; eauto; lia.
Qed.

Lemma scanArgs_port_unparsed cmdline n i pr j v :
  (i ≤ j < i + n)%nat →
  cmdline !! j = Some "-container-port" → cmdline !! S j = Some v →
  Atoi v = None →
  scanArgs cmdline n i pr = None.
Proof.
  intros Hj Hflag Hv Hnone.
  destruct (scanArgs cmdline n i pr) as [r|] eqn:Hr; [|done].
  destruct (scanArgs_port_parsed _ _ _ _ _ _ _ Hr Hj Hflag Hv) as [m Hm].
  congruence.
Qed.

(** Without a [-container-ip] flag the target IP stays as it was. *)
Lemma scanArgs_no_ip cmdline n i pr r :
  (∀ j, (i ≤ j < i + n)%nat → cmdline !! j ≠ Some "-container-ip") →
  scanArgs cmdline n i pr = Some r →
  Ip (target r) = Ip (target pr).
Proof.
  revert i pr. induction n as [|n IH]; intros i pr Hno; simpl.
  - by intros [= ->].
  - destruct (cmdline !! i) as [a|] eqn:Hi; [|by intros [= ->]].
    destruct (cmdline !! S i) as [v|]; [|by intros [= ->]].
    assert (a ≠ "-container-ip") as Ha.
    { intros ->. apply (Hno i); [lia | done]. }
    rewrite decide_False by done.
    repeat case_match; try done; intros Hr.
    all: apply IH in Hr; [done | intros j Hj; apply Hno; lia].
Qed.

(** Without a [-container-port] flag the target port stays as it was. *)
Lemma scanArgs_no_port cmdline n i pr r :
  (∀ j, (i ≤ j < i + n)%nat → cmdline !! j ≠ Some "-container-port") →
  scanArgs cmdline n i pr = Some r →
  Port (target r) = Port (target pr).
Proof.
  revert i pr. induction n as [|n IH]; intros i pr Hno; simpl.
  - by intros [= ->].
  - destruct (cmdline !! i) as [a|] eqn:Hi; [|by intros [= ->]].
    destruct (cmdline !! S i) as [v|]; [|by intros [= ->]].
    assert (a ≠ "-container-port") as Ha.
    { intros ->. apply (Hno i); [lia | done]. }
    case_decide; [|rewrite decide_False by done]; intros Hr.
    all: apply IH in Hr; [done | intros j Hj; apply Hno; lia].
Qed.

(** The port of the record is the value of the last [-container-port]
    flag, converted to [int32]. *)
Lemma scanArgs_last_port cmdline n i pr r j v :
  scanArgs cmdline n i pr = Some r →
  (i ≤ j < i + n)%nat →
  cmdline !! j = Some "-container-port" → cmdline !! S j = Some v →
  (∀ j', (j < j' < i + n)%nat → cmdline !! j' ≠ Some "-container-port") →
  ∃ m, Atoi v = Some m ∧ Port (target r) = int32 m.
Proof.
  revert i pr. induction n as [|n IH]; intros i pr Hr Hj Hflag Hv Hlast; [lia|].
  simpl in Hr.
  destruct (decide (j = i)) as [->|Hne].
  - rewrite Hflag, Hv in Hr.
    rewrite decide_False, decide_True in Hr by done.
    destruct (Atoi v) as [m|]; [|done]. exists m. split; [done|].
    apply scanArgs_no_port in Hr; [done|].
    intros j' Hj'. apply Hlast. lia.
  - apply lookup_lt_Some in Hv as Hlen.
    destruct (cmdline !! i) eqn:Hi; [|apply lookup_ge_None in Hi; lia].
    destruct (cmdline !! S i) eqn:Hsi; [|apply lookup_ge_None in Hsi; lia].
    revert Hr; repeat case_match; try done; intros Hr.
    all: eapply IH; eauto; try lia.
    all: intros j' Hj'; apply Hlast; lia.
Qed.

(** [Atoi] accepts decimal digits only, after an optional sign. *)
Lemma parseDigits_digits s acc n c :
  parseDigits s acc = Some n → c ∈ list_ascii_of_string s → isDigit c = true.
Proof.
  revert acc. induction s as [|a s IH]; intros acc; simpl.
  - intros _ Hc. by apply elem_of_nil in Hc.
  - destruct (isDigit a) eqn:Ha; [|done].
    intros Hn [->|Hc]%elem_of_cons; [done | by eapply IH].
Qed.

Lemma Atoi_digits s n c :
  Atoi s = Some n → c ∈ list_ascii_of_string s →
  isDigit c = true ∨ c = "-"%char ∨ c = "+"%char.
Proof.
  unfold Atoi. destruct s as [|a rest]; [done|].
  intros Hn Hc. repeat case_decide.
  - subst a. simpl in Hc. apply elem_of_cons in Hc as [->|Hc]; [tauto|].
    destruct rest as [|b rest]; [done|].
    destruct (parseDigits (String b rest) 0) eqn:Hp; [|done].
    left. by eapply parseDigits_digits.
  - subst a. simpl in Hc. apply elem_of_cons in Hc as [->|Hc]; [tauto|].
    destruct rest as [|b rest]; [done|].
    destruct (parseDigits (String b rest) 0) eqn:Hp; [|done].
    left. by eapply parseDigits_digits.
  - destruct (parseDigits (String a rest) 0) eqn:Hp; [|done].
    left. by eapply parseDigits_digits.
Qed.

Lemma extractProxyInfo_inv p r :
  extractProxyInfo p = Some r →
  ∃ arg0 rest, Cmdline p = arg0 :: rest ∧
    EndsWith arg0 "docker-proxy" = true ∧
    scanArgs (Cmdline p) (length (Cmdline p) - 1) 0
             (mkProxy (pPid p) "" (mkAddr "" 0)) = Some r ∧
    Ip (target r) ≠ "".
Proof.
  unfold extractProxyInfo.
  destruct (Cmdline p) as [|arg0 rest] eqn:Hc; [done|].
  destruct (EndsWith arg0 "docker-proxy") eqn:He; simpl; [|done].
  destruct (scanArgs _ _ _ _) as [pr|] eqn:Hs; [|done].
  unfold ipIsZero. rewrite orb_diag. case_bool_decide as Hip; [done|].
  intros [= <-]. by exists arg0, rest.
Qed.

Lemma extractProxyInfo_port_parsed p r j v :
  extractProxyInfo p = Some r →
  Cmdline p !! j = Some "-container-port" → Cmdline p !! S j = Some v →
  is_Some (Atoi v).
Proof.
  intros (arg0 & rest & Hc & He & Hs & Hip)%extractProxyInfo_inv Hj Hv.
  apply lookup_lt_Some in Hv as Hlen.
  eapply scanArgs_port_parsed; eauto. lia.
Qed.

Lemma int32_id (n : Z) : - 2 ^ 31 ≤ n < 2 ^ 31 → int32 n = n.
Proof. intros Hn. unfold int32. rewrite Z.mod_small; lia. Qed.

Lemma detected_elem_of procs r :
  r ∈ detected procs ↔ ∃ p, p ∈ procs ∧ extractProxyInfo p = Some r.
Proof. apply list_elem_of_omap. Qed.

(** Where [LoadProxies] leaves the last record of a key. *)
Lemma LoadProxies_last_pid f procs rs1 r rs2 :
  detected procs = rs1 ++ r :: rs2 → pid r ∉ pid <$> rs2 →
  proxyByPID (LoadProxies f procs) !! pid r
    = Some (length (heap f) + length rs1)%nat ∧
  heap (LoadProxies f procs) !! (length (heap f) + length rs1)%nat = Some r.
Proof.
  intros Hd Hk. rewrite LoadProxies_heap_new, LoadProxies_closed, Hd. simpl.
  split; [by apply (indexFrom_last pid)|].
  by rewrite lookup_app_r, Nat.sub_diag.
Qed.

Lemma LoadProxies_last_target f procs rs1 r rs2 :
  detected procs = rs1 ++ r :: rs2 → target r ∉ target <$> rs2 →
  proxyByTarget (LoadProxies f procs) !! target r
    = Some (length (heap f) + length rs1)%nat ∧
  heap (LoadProxies f procs) !! (length (heap f) + length rs1)%nat = Some r.
Proof.
  intros Hd Hk. rewrite LoadProxies_heap_new, LoadProxies_closed, Hd. simpl.
  split; [by apply (indexFrom_last target)|].
  by rewrite lookup_app_r, Nat.sub_diag.
Qed.

Lemma detected_procA : detected [procA] = [recA].
Proof. reflexivity. Qed.

Lemma detected_procB : detected [procB] = [recB].
Proof. reflexivity. Qed.

(** * The loading pass *)

(** C1, as the claim states it, fails: [regA] holds the proxy of pid 100;
    a later load of a snapshot that only has the proxy of pid 200, with
    another target, leaves the record of pid 100 retrievable by pid and by
    target. *)
Lemma LoadProxies_replaces_counterexample :
  (∀ r, r ∈ detected [procB] → pid r ≠ 100 ∧ target r ≠ targetA) ∧
  lookupByPID regA 100 = Some recA ∧
  lookupByPID (LoadProxies regA [procB]) 100 = Some recA ∧
  lookupByTarget (LoadProxies regA [procB]) targetA = Some recA.
Proof.
  split.
  - intros r Hr. rewrite detected_procB in Hr.
    apply list_elem_of_singleton in Hr as ->. by split.
  - repeat split; vm_compute; reflexivity.
Qed.

(** C1, amended: a load removes nothing.  A record retrievable before the
    load under a pid (resp. a target) that no proxy detected in the new
    snapshot has, is retrievable after it, unchanged; a load only adds
    entries and overwrites those whose key it detects again. *)
Theorem LoadProxies_keeps_other_entries f procs :
  (∀ k p, lookupByPID f k = Some p → k ∉ pid <$> detected procs →
          lookupByPID (LoadProxies f procs) k = Some p) ∧
  (∀ a p, lookupByTarget f a = Some p → a ∉ target <$> detected procs →
          lookupByTarget (LoadProxies f procs) a = Some p).
Proof.
  split.
  - intros k p Hk Hnew. unfold lookupByPID in *.
    rewrite LoadProxies_closed at 1. simpl.
    rewrite indexFrom_notin by done.
    destruct (proxyByPID f !! k) as [l|]; [|done]. simpl in *.
    by apply LoadProxies_heap_old.
  - intros a p Ha Hnew. unfold lookupByTarget in *.
    rewrite LoadProxies_closed at 1. simpl.
    rewrite indexFrom_notin by done.
    destruct (proxyByTarget f !! a) as [l|]; [|done]. simpl in *.
    by apply LoadProxies_heap_old.
Qed.

Lemma LoadProxies_keeps_other_entries_witness :
  (lookupByPID regA 100 = Some recA ∧ 100 ∉ pid <$> detected [procB]) ∧
  (lookupByTarget regA targetA = Some recA ∧
   targetA ∉ target <$> detected [procB]) ∧
  lookupByPID (LoadProxies regA [procB]) 100 = Some recA ∧
  lookupByTarget (LoadProxies regA [procB]) targetA = Some recA.
Proof.
  assert (lookupByPID regA 100 = Some recA) as H1 by (vm_compute; reflexivity).
  assert (100 ∉ pid <$> detected [procB]) as H2.
  { rewrite detected_procB. simpl. by intros ?%list_elem_of_singleton. }
  assert (lookupByTarget regA targetA = Some recA) as H3
    by (vm_compute; reflexivity).
  assert (targetA ∉ target <$> detected [procB]) as H4.
  { rewrite detected_procB. simpl. by intros ?%list_elem_of_singleton. }
  destruct (LoadProxies_keeps_other_entries regA [procB]) as [Hp Ht].
  split; [by split|]. split; [by split|].
  split; [exact (Hp 100 recA H1 H2) | exact (Ht targetA recA H3 H4)].
Defined.

(** C7: after a load of a snapshot whose detected proxies have distinct
    pids, every detected record is retrievable under its pid, and the
    target index holds, under the record's target, the last detected record
    with that target, through the very pointer the pid index has for that
    record.  So of two proxies with one target the later one is found by
    target, and both are found by pid. *)
Theorem LoadProxies_two_indexes f procs :
  NoDup (pid <$> detected procs) →
  (∀ p r, p ∈ procs → extractProxyInfo p = Some r →
     lookupByPID (LoadProxies f procs) (pid r) = Some r ∧
     ∃ rs1 r' rs2,
       detected procs = rs1 ++ r' :: rs2 ∧ target r' = target r ∧
       (target r ∉ target <$> rs2) ∧
       lookupByTarget (LoadProxies f procs) (target r) = Some r' ∧
       proxyByTarget (LoadProxies f procs) !! target r
       = proxyByPID (LoadProxies f procs) !! pid r') ∧
  (∀ rs1 r rs2,
     detected procs = rs1 ++ r :: rs2 → target r ∉ target <$> rs2 →
     lookupByTarget (LoadProxies f procs) (target r) = Some r) ∧
  (∀ rs1 r1 rs2 r2 rs3,
     detected procs = rs1 ++ r1 :: rs2 ++ r2 :: rs3 →
     target r1 = target r2 → target r2 ∉ target <$> rs3 →
     lookupByTarget (LoadProxies f procs) (target r1) = Some r2 ∧
     lookupByPID (LoadProxies f procs) (pid r1) = Some r1 ∧
     lookupByPID (LoadProxies f procs) (pid r2) = Some r2).
Proof.
  intros Hnd.
  assert (∀ rs1 r rs2, detected procs = rs1 ++ r :: rs2 →
            pid r ∉ pid <$> rs2) as Hlastpid.
  { intros rs1 r rs2 Hd. rewrite Hd, fmap_app, fmap_cons in Hnd.
    apply NoDup_app in Hnd as (_ & _ & Hnd). by apply NoDup_cons in Hnd as []. }
  assert (∀ rs1 r rs2, detected procs = rs1 ++ r :: rs2 →
            lookupByPID (LoadProxies f procs) (pid r) = Some r) as Hbypid.
  { intros rs1 r rs2 Hd. unfold lookupByPID.
    destruct (LoadProxies_last_pid f procs rs1 r rs2 Hd) as [Hq Hh];
      [by eapply Hlastpid | by rewrite Hq]. }
  split.
  - intros p r Hp Hr.
    assert (r ∈ detected procs) as Hin by (apply detected_elem_of; eauto).
    split.
    + apply list_elem_of_split in Hin as (rs1 & rs2 & Hd). by eapply Hbypid.
    + destruct (last_with_key target (detected procs) (target r))
        as (rs1 & r' & rs2 & Hd & Hk & Hn); [by apply list_elem_of_fmap_2|].
      exists rs1, r', rs2. rewrite <- Hk in *.
      destruct (LoadProxies_last_target f procs rs1 r' rs2 Hd Hn) as [Ht Hh].
      destruct (LoadProxies_last_pid f procs rs1 r' rs2 Hd) as [Hq _];
        [by eapply Hlastpid|].
      repeat split; try done.
      * unfold lookupByTarget. by rewrite Ht.
      * by rewrite Ht, Hq.
  - split.
    { intros rs1 r rs2 Hd Hn. unfold lookupByTarget.
      destruct (LoadProxies_last_target f procs rs1 r rs2 Hd Hn) as [Hq Hh].
      by rewrite Hq. }
    intros rs1 r1 rs2 r2 rs3 Hd Ht Hn. repeat split.
    + rewrite Ht. unfold lookupByTarget.
      rewrite app_comm_cons, app_assoc in Hd.
      destruct (LoadProxies_last_target f procs _ r2 rs3 Hd Hn) as [Hq Hh].
      by rewrite Hq.
    + by eapply Hbypid.
    + rewrite app_comm_cons, app_assoc in Hd. by eapply Hbypid.
Qed.

Lemma LoadProxies_two_indexes_witness :
  NoDup (pid <$> detected [procA; procC]) ∧
  lookupByTarget (LoadProxies emptyFilter [procA; procC]) (target recA)
    = Some recC ∧
  lookupByPID (LoadProxies emptyFilter [procA; procC]) (pid recA)
    = Some recA ∧
  lookupByPID (LoadProxies emptyFilter [procA; procC]) (pid recC)
    = Some recC.
Proof.
  assert (NoDup (pid <$> detected [procA; procC])) as Hnd.
  { change (NoDup [100; 300]). apply NoDup_cons.
    split; [by intros ?%list_elem_of_singleton | apply NoDup_singleton]. }
  split; [exact Hnd|].
  destruct (LoadProxies_two_indexes emptyFilter [procA; procC] Hnd)
    as (_ & _ & Htwo).
  apply (Htwo [] recA [] recC []); [reflexivity | reflexivity |].
  simpl. apply not_elem_of_nil.
Defined.

(** * Detection *)

(** C2, as the claim states it, fails: a [-container-port] value that
    parses to a negative integer does not invalidate the process; the
    record is created, with the negative port. *)
Lemma extractProxyInfo_negative_port_counterexample :
  Atoi "-80" = Some (-80) ∧
  extractProxyInfo procNeg = Some (mkProxy 100 "" (mkAddr "10.0.0.5" (-80))) ∧
  Port (mkAddr "10.0.0.5" (-80)) < 0.
Proof. repeat split. Qed.

(** C2, amended: detection creates a record only when the target IP is not
    empty and every [-container-port] value on the command line parses as
    an integer; the sign of the parsed value is not looked at: the port of
    the record is the value of the last such flag converted to [int32],
    which is the parsed value itself, negative or not, when it fits. *)
Theorem extractProxyInfo_record p r :
  extractProxyInfo p = Some r →
  pid r = pPid p ∧ ip r = "" ∧ Ip (target r) ≠ "" ∧
  (∀ j v, Cmdline p !! j = Some "-container-port" →
          Cmdline p !! S j = Some v → is_Some (Atoi v)) ∧
  (∀ j v, Cmdline p !! j = Some "-container-port" →
          Cmdline p !! S j = Some v →
          (∀ j', (j < j')%nat → is_Some (Cmdline p !! S j') →
                 Cmdline p !! j' ≠ Some "-container-port") →
          ∃ m, Atoi v = Some m ∧ Port (target r) = int32 m ∧
               (- 2 ^ 31 ≤ m < 2 ^ 31 → Port (target r) = m)).
Proof.
  intros Hr.
  pose proof Hr as (arg0 & rest & Hc & He & Hs & Hip)%extractProxyInfo_inv.
  destruct (scanArgs_pid_ip _ _ _ _ _ Hs) as [Hpid Hi].
  repeat split; try done.
  - intros j v. by apply extractProxyInfo_port_parsed with r.
  - intros j v Hj Hv Hlast. apply lookup_lt_Some in Hv as Hlen.
    destruct (scanArgs_last_port _ _ _ _ _ j v Hs) as (m & Hm & Hport);
      try done; [lia | |].
    + intros j' Hj'. apply Hlast; [lia|]. apply lookup_lt_is_Some. lia.
    + exists m. repeat split; try done.
      intros Hrange. by rewrite Hport, int32_id.
Qed.

Lemma extractProxyInfo_record_witness :
  extractProxyInfo procNeg = Some (mkProxy 100 "" (mkAddr "10.0.0.5" (-80))) ∧
  ∃ m, Atoi "-80" = Some m ∧ -80 = int32 m ∧ (- 2 ^ 31 ≤ m < 2 ^ 31 → -80 = m).
Proof.
  assert (extractProxyInfo procNeg
          = Some (mkProxy 100 "" (mkAddr "10.0.0.5" (-80)))) as H
    by reflexivity.
  split; [exact H|].
  destruct (extractProxyInfo_record _ _ H) as (_ & _ & _ & _ & Hlast).
  apply (Hlast 3%nat "-80"); [reflexivity | reflexivity |].
  intros j' Hj' [v Hv]. apply lookup_lt_Some in Hv. simpl in Hv. lia.
Defined.

(** C9: the command line [".../docker-proxy"; "-container-ip"; "10.0.0.5";
    "-container-port"; "80"] yields a record with target 10.0.0.5:80; a
    command line that is empty or whose first argument does not end with
    [docker-proxy], one without [-container-ip], and one with a
    [-container-port] value that does not parse, yield no record. *)
Theorem extractProxyInfo_detection :
  (∀ k dir,
     extractProxyInfo
       (mkProcess k [dir +:+ "docker-proxy"; "-container-ip"; "10.0.0.5";
                     "-container-port"; "80"])
     = Some (mkProxy k "" (mkAddr "10.0.0.5" 80))) ∧
  (∀ p, (∀ arg0 rest, Cmdline p = arg0 :: rest →
                      ¬ ∃ dir, arg0 = dir +:+ "docker-proxy") →
        extractProxyInfo p = None) ∧
  (∀ p, "-container-ip" ∉ Cmdline p → extractProxyInfo p = None) ∧
  (∀ p j v, Cmdline p !! j = Some "-container-port" →
            Cmdline p !! S j = Some v → Atoi v = None →
            extractProxyInfo p = None) ∧
  (∀ p j v c, Cmdline p !! j = Some "-container-port" →
              Cmdline p !! S j = Some v →
              c ∈ list_ascii_of_string v → isDigit c = false →
              c ≠ "-"%char → c ≠ "+"%char →
              extractProxyInfo p = None).
Proof.
  assert (∀ p j v, Cmdline p !! j = Some "-container-port" →
            Cmdline p !! S j = Some v → Atoi v = None →
            extractProxyInfo p = None) as Hunparsed.
  { intros p j v Hj Hv Hnone.
    destruct (extractProxyInfo p) as [r|] eqn:Hr; [|done].
    destruct (extractProxyInfo_port_parsed p r j v Hr Hj Hv) as [m Hm].
    congruence. }
  split; [|split; [|split; [|split; [exact Hunparsed|]]]].
  - intros k dir. unfold extractProxyInfo. simpl.
    assert (EndsWith (dir +:+ "docker-proxy") "docker-proxy" = true) as He
      by (apply EndsWith_spec; eauto).
    destruct (EndsWith_not_flag _ He) as [H1 H2].
    rewrite He. simpl. by rewrite !decide_False by done.
  - intros p Hno.
    destruct (extractProxyInfo p) as [r|] eqn:Hr; [|done].
    apply extractProxyInfo_inv in Hr as (arg0 & rest & Hc & He & _).
    destruct (Hno arg0 rest Hc). by apply EndsWith_spec.
  - intros p Hno.
    destruct (extractProxyInfo p) as [r|] eqn:Hr; [|done].
    apply extractProxyInfo_inv in Hr as (arg0 & rest & Hc & He & Hs & Hip).
    apply scanArgs_no_ip in Hs; [done|].
    intros j _ Hj. apply Hno. by eapply list_elem_of_lookup_2.
  - intros p j v c Hj Hv Hc Hd Hminus Hplus.
    apply (Hunparsed p j v Hj Hv).
    destruct (Atoi v) as [m|] eqn:Hm; [|done].
    destruct (Atoi_digits v m c Hm Hc) as [?|[?|?]]; congruence.
Qed.

Lemma extractProxyInfo_detection_witness :
  extractProxyInfo (mkProcess 1 ["/usr/bin/dockerd"; "-container-ip"; "10.0.0.5";
                                 "-container-port"; "80"]) = None ∧
  extractProxyInfo (mkProcess 1 ["/usr/bin/docker-proxy"; "-container-port"; "80"])
    = None ∧
  (Atoi "http" = None ∧
   extractProxyInfo (mkProcess 1 ["/usr/bin/docker-proxy"; "-container-ip";
                                  "10.0.0.5"; "-container-port"; "http"])
     = None).
Proof.
  destruct extractProxyInfo_detection as (_ & Hname & Hip & Hport & _).
  split; [|split; [|split; [reflexivity|]]].
  - apply Hname. simpl. intros arg0 rest [= <- <-] [dir Hdir].
    assert (EndsWith "/usr/bin/dockerd" "docker-proxy" = true) as He
      by (apply EndsWith_spec; eauto).
    vm_compute in He. discriminate.
  - apply Hip. simpl. intros Hin.
    repeat (apply elem_of_cons in Hin as [Hin|Hin]; [discriminate|]).
    by apply elem_of_nil in Hin.
  - apply (Hport _ 3%nat "http"); reflexivity.
Defined.

(** * The filtering pass *)

Lemma FilterConns_single f c :
  FilterConns f [c] =
  (discover f c, if isProxied (discover f c) c then [] else [c]).
Proof. rewrite FilterConns_cons. simpl. by destruct (isProxied _ c). Qed.

(** A known [ip] survives every pass. *)
Lemma FilterConns_known f conns l p :
  heap f !! l = Some p → ip p ≠ "" →
  heap (FilterConns f conns).1 !! l = Some p.
Proof.
  intros Hl Hip.
  destruct (FilterConns_refines f conns) as (_ & _ & _ & Hr).
  destruct (Hr l p Hl) as (q & Hq & Hqp & Hqt & Hqi).
  rewrite Hq. f_equal. apply proxy_eq; auto.
Qed.

Lemma discover_lookupByTarget_known f c a p :
  lookupByTarget f a = Some p → ip p ≠ "" →
  lookupByTarget (discover f c) a = Some p.
Proof.
  unfold lookupByTarget. rewrite discover_proxyByTarget.
  destruct (proxyByTarget f !! a) as [l|]; simpl; [|done].
  intros Hl Hip. rewrite (discover_lookup f c l p Hl).
  rewrite (bool_decide_eq_false_2 (ip p = "")) by done.
  by rewrite andb_false_r.
Qed.

(** The end-to-end example of the spec: the two legs through the proxy
    are dropped, the connection from another address is kept. *)
Example FilterConns_end_to_end :
  FilterConns regKnown
    [mkConnection 100 (mkAddr "172.17.0.2" 54321) targetA;
     mkConnection 100 targetA (mkAddr "172.17.0.2" 54321);
     mkConnection 7 targetA (mkAddr "8.8.8.8" 443)]
  = (regKnown, [mkConnection 7 targetA (mkAddr "8.8.8.8" 443)]).
Proof. vm_compute. reflexivity. Qed.

(** C6: the output of a pass is a subsequence of its input, whatever the
    registry and the batch; the pass is a total function, so there is no
    input on which it fails. *)
Theorem FilterConns_subsequence f conns :
  ∃ f' filtered,
    FilterConns f conns = (f', filtered) ∧ filtered `sublist_of` conns.
Proof.
  exists (FilterConns f conns).1, (FilterConns f conns).2.
  split; [by destruct (FilterConns f conns) | apply FilterConns_sublist].
Qed.

(** C8: with no proxy loaded, a pass returns its input as it is and leaves
    the registry as it is. *)
Theorem FilterConns_empty_registry f conns :
  proxyByPID f = ∅ → proxyByTarget f = ∅ →
  FilterConns f conns = (f, conns).
Proof.
  intros Hp Ht.
  rewrite FilterConns_pure.
  - f_equal. unfold kept. induction conns as [|c rest IH]; [done|].
    rewrite filter_cons, IH.
    unfold isProxied, lookupByTarget. by rewrite Ht, !lookup_empty.
  - intros c _. unfold discover. by rewrite Hp, lookup_empty.
Qed.

Lemma FilterConns_empty_registry_witness :
  proxyByPID (NewFilter None) = ∅ ∧ proxyByTarget (NewFilter None) = ∅ ∧
  FilterConns (NewFilter None) [connForeign; connOwn]
  = (NewFilter None, [connForeign; connOwn]).
Proof.
  split; [reflexivity|]. split; [reflexivity|].
  apply FilterConns_empty_registry; reflexivity.
Defined.

(** C4: a connection is classified as proxied exactly when the target index
    has a record for its local endpoint whose [ip] is the remote IP, or has
    none for the local endpoint and one for the remote endpoint whose [ip]
    is the local IP.  So a connection to a known target from another IP
    than the known one of the proxy is kept by the pass. *)
Theorem isProxied_spec f c :
  (isProxied f c = true ↔
   (∃ p, lookupByTarget f (mkAddr (Ip (Laddr c)) (Port (Laddr c))) = Some p ∧
         ip p = Ip (Raddr c)) ∨
   (lookupByTarget f (mkAddr (Ip (Laddr c)) (Port (Laddr c))) = None ∧
    ∃ p, lookupByTarget f (mkAddr (Ip (Raddr c)) (Port (Raddr c))) = Some p ∧
         ip p = Ip (Laddr c))) ∧
  (∀ p, lookupByTarget f (mkAddr (Ip (Laddr c)) (Port (Laddr c))) = Some p →
        ip p ≠ "" → ip p ≠ Ip (Raddr c) →
        (FilterConns f [c]).2 = [c]).
Proof.
  split.
  - unfold isProxied.
    destruct (lookupByTarget f (mkAddr (Ip (Laddr c)) (Port (Laddr c))))
      as [p|].
    + rewrite bool_decide_eq_true. split.
      * intros Hp. left. eauto.
      * intros [(q & [= <-] & Hq)|[[=] _]]. done.
    + destruct (lookupByTarget f (mkAddr (Ip (Raddr c)) (Port (Raddr c))))
        as [p|].
      * rewrite bool_decide_eq_true. split.
        -- intros Hp. right. eauto.
        -- intros [(q & [=] & _)|(_ & q & [= <-] & Hq)]. done.
      * split; [done|]. intros [(q & [=] & _)|(_ & q & [=] & _)].
  - intros p Hl Hknown Hother.
    rewrite FilterConns_single. simpl.
    unfold isProxied.
    rewrite (discover_lookupByTarget_known f c _ p Hl Hknown).
    by rewrite bool_decide_eq_false_2.
Qed.

Lemma isProxied_spec_witness :
  let f := (FilterConns regA [connOwn]).1 in
  let c := mkConnection 999 targetA (mkAddr "8.8.8.8" 443) in
  (lookupByTarget f (mkAddr (Ip (Laddr c)) (Port (Laddr c)))
     = Some (setIp recA "9.9.9.9") ∧
   ip (setIp recA "9.9.9.9") ≠ "" ∧
   ip (setIp recA "9.9.9.9") ≠ Ip (Raddr c)) ∧
  (FilterConns f [c]).2 = [c].
Proof.
  intros f c.
  assert (lookupByTarget f (mkAddr (Ip (Laddr c)) (Port (Laddr c)))
          = Some (setIp recA "9.9.9.9")) as H1 by (vm_compute; reflexivity).
  assert (ip (setIp recA "9.9.9.9") ≠ "") as H2 by discriminate.
  assert (ip (setIp recA "9.9.9.9") ≠ Ip (Raddr c)) as H3 by discriminate.
  split; [done|].
  destruct (isProxied_spec f c) as [_ Hkept].
  exact (Hkept _ H1 H2 H3).
Defined.

Lemma discoverProxyIP_local p c :
  Ip (Laddr c) = Ip (target p) → Port (Laddr c) = Port (target p) →
  discoverProxyIP p c = setIp p (Ip (Raddr c)).
Proof.
  intros H1 H2. unfold discoverProxyIP.
  rewrite (bool_decide_eq_true_2 _ H1), (bool_decide_eq_true_2 _ H2). done.
Qed.

Lemma discoverProxyIP_remote p c :
  ¬ (Ip (Laddr c) = Ip (target p) ∧ Port (Laddr c) = Port (target p)) →
  Ip (Raddr c) = Ip (target p) → Port (Raddr c) = Port (target p) →
  discoverProxyIP p c = setIp p (Ip (Laddr c)).
Proof.
  intros Hl H1 H2. unfold discoverProxyIP.
  rewrite (bool_decide_eq_true_2 _ H1), (bool_decide_eq_true_2 _ H2).
  repeat case_bool_decide; simpl; tauto.
Qed.

Lemma discoverProxyIP_neither p c :
  ¬ (Ip (Laddr c) = Ip (target p) ∧ Port (Laddr c) = Port (target p)) →
  ¬ (Ip (Raddr c) = Ip (target p) ∧ Port (Raddr c) = Port (target p)) →
  discoverProxyIP p c = p.
Proof.
  intros Hl Hr. unfold discoverProxyIP.
  repeat case_bool_decide; simpl; tauto.
Qed.

(** C5: the [ip] of a record goes from unknown (empty) to known and stays:
    a known [ip] is left as it is by every later pass; for a record whose
    [ip] is unknown, a connection of its pid whose local end is the target
    sets it to the remote IP, which no later connection changes once it is
    known; and a connection with neither end on the target leaves the
    record as it is. *)
Theorem observedIP_one_way f :
  (∀ conns l p, heap f !! l = Some p → ip p ≠ "" →
     heap (FilterConns f conns).1 !! l = Some p) ∧
  (∀ c l p, proxyByPID f !! cPid c = Some l → heap f !! l = Some p →
     ip p = "" →
     Ip (Laddr c) = Ip (target p) → Port (Laddr c) = Port (target p) →
     heap (FilterConns f [c]).1 !! l = Some (setIp p (Ip (Raddr c))) ∧
     (Ip (Raddr c) ≠ "" →
      ∀ conns, heap (FilterConns f (c :: conns)).1 !! l
               = Some (setIp p (Ip (Raddr c))))) ∧
  (∀ c l p, heap f !! l = Some p →
     ¬ (Ip (Laddr c) = Ip (target p) ∧ Port (Laddr c) = Port (target p)) →
     ¬ (Ip (Raddr c) = Ip (target p) ∧ Port (Raddr c) = Port (target p)) →
     heap (FilterConns f [c]).1 !! l = Some p) ∧
  (∀ c p,
     Ip (Laddr c) = Ip (target p) → Port (Laddr c) = Port (target p) →
     discoverProxyIP p c = mkProxy (pid p) (Ip (Raddr c)) (target p)).
Proof.
  split; [|split; [|split; [|intros c p; apply discoverProxyIP_local]]].
  - intros conns l p. apply FilterConns_known.
  - intros c l p Hk Hl Hip Hl1 Hl2.
    assert (heap (discover f c) !! l = Some (setIp p (Ip (Raddr c)))) as Hd.
    { rewrite (discover_lookup f c l p Hl).
      rewrite !bool_decide_eq_true_2 by done. simpl.
      by rewrite discoverProxyIP_local. }
    split.
    + by rewrite FilterConns_single.
    + intros Hknown conns. rewrite FilterConns_cons. simpl.
      by apply FilterConns_known.
  - intros c l p Hl Hnl Hnr. rewrite FilterConns_single. simpl.
    rewrite (discover_lookup f c l p Hl), discoverProxyIP_neither by done.
    by destruct (_ && _).
Qed.

Lemma observedIP_one_way_witness :
  (proxyByPID regA !! cPid connOwn = Some 0%nat ∧
   heap regA !! 0%nat = Some recA ∧ ip recA = "" ∧
   Ip (Laddr connOwn) = Ip (target recA) ∧
   Port (Laddr connOwn) = Port (target recA) ∧
   Ip (Raddr connOwn) ≠ "") ∧
  heap (FilterConns regA [connOwn]).1 !! 0%nat = Some (setIp recA "9.9.9.9") ∧
  heap (FilterConns regA [connOwn; mkConnection 100 targetA (mkAddr "7.7.7.7" 1)]).1
    !! 0%nat = Some (setIp recA "9.9.9.9").
Proof.
  assert (proxyByPID regA !! cPid connOwn = Some 0%nat) as H1
    by (vm_compute; reflexivity).
  assert (heap regA !! 0%nat = Some recA) as H2 by reflexivity.
  assert (Ip (Raddr connOwn) ≠ "") as H3 by discriminate.
  split; [by repeat split|].
  destruct (observedIP_one_way regA) as (_ & Hset & _ & _).
  destruct (Hset connOwn 0%nat recA H1 H2 eq_refl eq_refl eq_refl)
    as [Hone Hlater].
  split; [exact Hone | exact (Hlater H3 _)].
Defined.

(** * Repeated passes *)

(** C3, as the claim states it, fails: in [regA] the first pass keeps the
    foreign connection to the target, since the proxy's [ip] is unknown
    when it is tested, then learns the [ip] from the proxy's own
    connection; the second pass drops the connection the first one kept. *)
Lemma FilterConns_twice_counterexample :
  (FilterConns regA [connForeign; connOwn]).2 = [connForeign] ∧
  (FilterConns (FilterConns regA [connForeign; connOwn]).1 [connForeign]).2
  = [].
Proof. split; vm_compute; reflexivity. Qed.

(** C3, amended: a second pass over the output of a first one leaves the
    registry as the first pass left it, and returns the connections of that
    output that are not proxied in this registry: a subsequence of the
    output, and the whole output when the first pass left the registry as
    it found it.  What the second pass returns, a further pass returns
    unchanged. *)
Theorem FilterConns_second_pass f conns :
  let f1 := (FilterConns f conns).1 in
  let out1 := (FilterConns f conns).2 in
  FilterConns f1 out1 = (f1, kept f1 out1) ∧
  kept f1 out1 `sublist_of` out1 ∧
  FilterConns f1 (kept f1 out1) = (f1, kept f1 out1) ∧
  (f1 = f → FilterConns f1 out1 = (f1, out1)).
Proof.
  intros f1 out1.
  assert (∀ c, c ∈ out1 → discover f1 c = f1) as Hstable.
  { intros c Hc. apply FilterConns_stable.
    by apply FilterConns_elem_of with f. }
  split; [by apply FilterConns_pure|].
  split; [apply kept_sublist|].
  split.
  - rewrite FilterConns_pure, kept_idemp; [done|].
    intros c Hc. by apply Hstable, kept_elem_of with f1.
  - intros Heq.
    assert (FilterConns f conns = (f, kept f conns)) as Hpure.
    { apply FilterConns_pure. intros c Hc. rewrite <- Heq.
      by apply FilterConns_stable. }
    subst out1. rewrite FilterConns_pure by done.
    rewrite Heq, Hpure. simpl. by rewrite kept_idemp.
Qed.

Lemma FilterConns_second_pass_witness :
  let c := mkConnection 999 targetA (mkAddr "8.8.8.8" 443) in
  (FilterConns regA [connForeign; c]).1 = regA ∧
  FilterConns (FilterConns regA [connForeign; c]).1
              (FilterConns regA [connForeign; c]).2
  = ((FilterConns regA [connForeign; c]).1,
     (FilterConns regA [connForeign; c]).2).
Proof.
  intros c.
  assert ((FilterConns regA [connForeign; c]).1 = regA) as H
    by (vm_compute; reflexivity).
  split; [exact H|].
  destruct (FilterConns_second_pass regA [connForeign; c]) as (_ & _ & _ & Hsame).
  exact (Hsame H).
Defined.

(** * Proxies whose address is still unknown *)

(** C10, as the claim states it, fails: in [regA] the [ip] of the proxy is
    not inferred yet, the proxy's own connection has its local end on the
    target and a remote IP that is not empty, and the pass drops it: the
    discovery step of the connection sets the [ip] before the test. *)
Lemma unknown_ip_drop_counterexample :
  lookupByTarget regA (mkAddr (Ip (Laddr connOwn)) (Port (Laddr connOwn)))
    = Some recA ∧
  ip recA = "" ∧
  Ip (Raddr connOwn) ≠ "" ∧
  (FilterConns regA [connOwn]).2 = [].
Proof.
  split; [vm_compute; reflexivity|].
  split; [reflexivity|].
  split; [discriminate | vm_compute; reflexivity].
Qed.

(** C10, amended: when the record the target index holds for the local
    (or, without a local-side record, remote) endpoint of a connection has
    an empty [ip] at the time of the membership test, that is after the
    discovery step of this connection, the connection is proxied, and
    dropped by the pass, exactly when the IP of its opposite endpoint is
    the empty string.  A connection owned by the pid of that very record
    is another case: its discovery step sets the [ip] to the opposite IP
    first, and the pass drops it whatever that IP is. *)
Theorem unknown_ip_drop f c :
  let la := mkAddr (Ip (Laddr c)) (Port (Laddr c)) in
  let ra := mkAddr (Ip (Raddr c)) (Port (Raddr c)) in
  (∀ g p, lookupByTarget g la = Some p → ip p = "" →
     (isProxied g c = true ↔ Ip (Raddr c) = "")) ∧
  (∀ g p, lookupByTarget g la = None → lookupByTarget g ra = Some p →
     ip p = "" →
     (isProxied g c = true ↔ Ip (Laddr c) = "")) ∧
  (∀ p, lookupByTarget (discover f c) la = Some p → ip p = "" →
     ((FilterConns f [c]).2 = [] ↔ Ip (Raddr c) = "")) ∧
  (∀ p, lookupByTarget (discover f c) la = None →
     lookupByTarget (discover f c) ra = Some p → ip p = "" →
     ((FilterConns f [c]).2 = [] ↔ Ip (Laddr c) = "")) ∧
  (∀ l p, proxyByPID f !! cPid c = Some l → heap f !! l = Some p →
     ip p = "" → target p = la → proxyByTarget f !! la = Some l →
     (FilterConns f [c]).2 = []).
Proof.
  intros la ra.
  assert (∀ g p, lookupByTarget g la = Some p → ip p = "" →
            (isProxied g c = true ↔ Ip (Raddr c) = "")) as Hlocal.
  { intros g p Hl Hip. unfold isProxied. fold la. rewrite Hl, Hip.
    rewrite bool_decide_eq_true. split; congruence. }
  assert (∀ g p, lookupByTarget g la = None → lookupByTarget g ra = Some p →
            ip p = "" →
            (isProxied g c = true ↔ Ip (Laddr c) = "")) as Hremote.
  { intros g p Hl Hr Hip. unfold isProxied. fold la ra. rewrite Hl, Hr, Hip.
    rewrite bool_decide_eq_true. split; congruence. }
  assert (∀ g, (FilterConns g [c]).2 = [] ↔ isProxied (discover g c) c = true)
    as Hdrop.
  { intros g. rewrite FilterConns_single. simpl.
    by destruct (isProxied (discover g c) c). }
  split; [exact Hlocal|]. split; [exact Hremote|].
  split; [|split].
  - intros p Hl Hip. rewrite Hdrop. by eapply Hlocal.
  - intros p Hl Hr Hip. rewrite Hdrop. by eapply Hremote.
  - intros l p Hk Hl Hip Ht Hidx. apply Hdrop.
    unfold isProxied, lookupByTarget. fold la.
    rewrite discover_proxyByTarget, Hidx. simpl.
    rewrite (discover_lookup f c l p Hl).
    rewrite (bool_decide_eq_true_2 _ Hk), (bool_decide_eq_true_2 _ Hip). simpl.
    rewrite discoverProxyIP_local by (by rewrite Ht).
    by apply bool_decide_eq_true_2.
Qed.

Lemma unknown_ip_drop_witness :
  let c := mkConnection 999 targetA (mkAddr "" 1234) in
  (lookupByTarget (discover regA c) (mkAddr (Ip (Laddr c)) (Port (Laddr c)))
     = Some recA ∧ ip recA = "") ∧
  ((FilterConns regA [c]).2 = [] ↔ Ip (Raddr c) = "") ∧
  (proxyByPID regA !! cPid connOwn = Some 0%nat ∧
   heap regA !! 0%nat = Some recA ∧
   target recA = mkAddr (Ip (Laddr connOwn)) (Port (Laddr connOwn)) ∧
   proxyByTarget regA !! mkAddr (Ip (Laddr connOwn)) (Port (Laddr connOwn))
     = Some 0%nat) ∧
  (FilterConns regA [connOwn]).2 = [].
Proof.
  intros c.
  assert (lookupByTarget (discover regA c)
            (mkAddr (Ip (Laddr c)) (Port (Laddr c))) = Some recA) as H1
    by (vm_compute; reflexivity).
  assert (proxyByPID regA !! cPid connOwn = Some 0%nat) as H2
    by (vm_compute; reflexivity).
  assert (heap regA !! 0%nat = Some recA) as H3 by reflexivity.
  assert (proxyByTarget regA
            !! mkAddr (Ip (Laddr connOwn)) (Port (Laddr connOwn))
          = Some 0%nat) as H4 by (vm_compute; reflexivity).
  split; [by split|].
  split.
  - destruct (unknown_ip_drop regA c) as (_ & _ & Hl & _).
    exact (Hl recA H1 eq_refl).
  - split; [by repeat split|].
    destruct (unknown_ip_drop regA connOwn) as (_ & _ & _ & _ & Hown).
    exact (Hown 0%nat recA H2 H3 eq_refl eq_refl H4).
Defined.

(** * Further properties of the registry *)

Section index_inv.
Context `{Countable K} (key : proxy → K).

(** An entry of the index is an old one or names one of the new records,
    under that record's key. *)
Lemma indexFrom_inv m base rs k l :
  indexFrom key m base rs !! k = Some l →
  m !! k = Some l ∨
  ∃ i r, l = (base + i)%nat ∧ rs !! i = Some r ∧ key r = k.
Proof.
  revert m base. induction rs as [|r rs IH]; intros m base Hl; simpl in Hl.
  - by left.
  - destruct (IH _ _ Hl) as [Hm|(i & r' & -> & Hi & Hk)].
    + destruct (decide (key r = k)) as [<-|Hne].
      * rewrite lookup_insert_eq in Hm. injection Hm as <-.
        right. exists 0%nat, r. split; [lia | done].
      * rewrite lookup_insert_ne in Hm by done. by left.
    + right. exists (S i), r'. split; [lia | done].
Qed.
End index_inv.

Lemma extractProxyInfo_fresh p r :
  extractProxyInfo p = Some r → pid r = pPid p ∧ ip r = "".
Proof.
  intros (arg0 & rest & Hc & He & Hs & Hip)%extractProxyInfo_inv.
  by apply scanArgs_pid_ip in Hs.
Qed.

Lemma detected_fresh procs r : r ∈ detected procs → ip r = "".
Proof.
  intros (p & _ & Hr)%detected_elem_of.
  by destruct (extractProxyInfo_fresh p r Hr).
Qed.

(** A lookup after a load, on a registry with valid pointers, finds an old
    record or a detected one that has the key. *)
Lemma LoadProxies_lookupByPID_inv f procs k p :
  wf f → lookupByPID (LoadProxies f procs) k = Some p →
  lookupByPID f k = Some p ∨ (p ∈ detected procs ∧ pid p = k).
Proof.
  intros [Hwf _]. unfold lookupByPID. rewrite LoadProxies_closed. simpl.
  destruct (indexFrom _ _ _ _ !! k) as [l|] eqn:Hl; [|done]. simpl.
  apply indexFrom_inv in Hl as [Hm|(i & r & -> & Hi & Hk)].
  - rewrite Hm. simpl. specialize (Hwf _ _ Hm).
    rewrite lookup_app_l by done. by left.
  - rewrite lookup_app_r, Nat.add_comm, Nat.add_sub by lia.
    rewrite Hi. intros [= <-]. right.
    split; [by eapply list_elem_of_lookup_2 | done].
Qed.

Lemma LoadProxies_lookupByTarget_inv f procs a p :
  wf f → lookupByTarget (LoadProxies f procs) a = Some p →
  lookupByTarget f a = Some p ∨ (p ∈ detected procs ∧ target p = a).
Proof.
  intros [_ Hwf]. unfold lookupByTarget. rewrite LoadProxies_closed. simpl.
  destruct (indexFrom _ _ _ _ !! a) as [l|] eqn:Hl; [|done]. simpl.
  apply indexFrom_inv in Hl as [Hm|(i & r & -> & Hi & Hk)].
  - rewrite Hm. simpl. specialize (Hwf _ _ Hm).
    rewrite lookup_app_l by done. by left.
  - rewrite lookup_app_r, Nat.add_comm, Nat.add_sub by lia.
    rewrite Hi. intros [= <-]. right.
    split; [by eapply list_elem_of_lookup_2 | done].
Qed.

(** X1: the registry [NewFilter] returns holds detected proxies only: a
    record found by pid or by target is the record detection gives for a
    process of the snapshot, it is filed under its own pid or target, and
    its [ip] is unknown.  When the process list could not be read, the
    registry holds nothing. *)
Theorem NewFilter_sound procs :
  (∀ k p, lookupByPID (NewFilter procs) k = Some p →
     pid p = k ∧ ip p = "" ∧
     ∃ ps proc, procs = Some ps ∧ proc ∈ ps ∧ extractProxyInfo proc = Some p) ∧
  (∀ a p, lookupByTarget (NewFilter procs) a = Some p →
     target p = a ∧ ip p = "" ∧
     ∃ ps proc, procs = Some ps ∧ proc ∈ ps ∧ extractProxyInfo proc = Some p) ∧
  (procs = None → NewFilter procs = emptyFilter).
Proof.
  destruct procs as [ps|]; simpl.
  - split; [|split; [|done]].
    + intros k p Hl.
      apply LoadProxies_lookupByPID_inv in Hl as [Hl|[Hin Hk]];
        [done | | apply wf_emptyFilter].
      split; [done|]. split; [by eapply detected_fresh|].
      apply detected_elem_of in Hin as (proc & Hproc & Hr). eauto.
    + intros a p Hl.
      apply LoadProxies_lookupByTarget_inv in Hl as [Hl|[Hin Hk]];
        [done | | apply wf_emptyFilter].
      split; [done|]. split; [by eapply detected_fresh|].
      apply detected_elem_of in Hin as (proc & Hproc & Hr). eauto.
  - split; [|split]; done.
Qed.

Lemma NewFilter_sound_witness :
  lookupByPID (NewFilter (Some [procB; procA])) 100 = Some recA ∧
  pid recA = 100 ∧ ip recA = "" ∧
  ∃ ps proc, Some [procB; procA] = Some ps ∧ proc ∈ ps ∧
             extractProxyInfo proc = Some recA.
Proof.
  assert (lookupByPID (NewFilter (Some [procB; procA])) 100 = Some recA) as H
    by (vm_compute; reflexivity).
  split; [exact H|].
  destruct (NewFilter_sound (Some [procB; procA])) as (Hpid & _ & _).
  exact (Hpid 100 recA H).
Defined.

Lemma refines_heap_back f g l q :
  refines f g → heap g !! l = Some q →
  ∃ p, heap f !! l = Some p ∧ pid q = pid p ∧ target q = target p ∧
       (ip p ≠ "" → ip q = ip p).
Proof.
  intros (_ & _ & Hn & Hr) Hq.
  destruct (heap f !! l) as [p|] eqn:Hp.
  - destruct (Hr l p Hp) as (q' & Hq' & ?). exists p. by simplify_eq.
  - apply lookup_ge_None in Hp. apply lookup_lt_Some in Hq. lia.
Qed.

Lemma reachable_wf f : reachable f → wf f.
Proof.
  induction 1 as [[ps|]|f procs _ IH|f conns _ IH].
  - apply wf_LoadProxies, wf_emptyFilter.
  - apply wf_emptyFilter.
  - by apply wf_LoadProxies.
  - by apply wf_FilterConns.
Qed.

(** X2: in every registry a program can reach, the pointers of both maps
    are allocated, so a key present in a map always gives a record: the
    dereference after a successful map lookup cannot fail. *)
Theorem reachable_pointers_valid f :
  reachable f →
  (∀ k, is_Some (proxyByPID f !! k) ↔ is_Some (lookupByPID f k)) ∧
  (∀ a, is_Some (proxyByTarget f !! a) ↔ is_Some (lookupByTarget f a)).
Proof.
  intros Hf%reachable_wf. split.
  - intros k. rewrite <- !not_eq_None_Some.
    by rewrite (wf_lookupByPID_None f k Hf).
  - intros a. rewrite <- !not_eq_None_Some.
    by rewrite (wf_lookupByTarget_None f a Hf).
Qed.

Lemma reachable_pointers_valid_witness :
  reachable regLearned ∧
  (is_Some (proxyByPID regLearned !! 100) ↔
   is_Some (lookupByPID regLearned 100)).
Proof.
  assert (reachable regLearned) as H by (apply reach_filter, reach_new).
  split; [exact H|].
  destruct (reachable_pointers_valid regLearned H) as [Hp _].
  exact (Hp 100).
Defined.

(** X3: in every registry a program can reach, a record found under a pid
    has that pid, a record found under a target has that target, and the
    target IP of a record is never empty. *)
Theorem reachable_keyed f :
  reachable f →
  (∀ k p, lookupByPID f k = Some p → pid p = k ∧ Ip (target p) ≠ "") ∧
  (∀ a p, lookupByTarget f a = Some p → target p = a ∧ Ip (target p) ≠ "").
Proof.
  induction 1 as [procs|f procs Hf IH|f conns Hf IH].
  - assert (∀ p, (∃ ps proc, procs = Some ps ∧ proc ∈ ps ∧
                    extractProxyInfo proc = Some p) → Ip (target p) ≠ "")
      as Hip.
    { intros p (ps & proc & _ & _ & Hp).
      by apply extractProxyInfo_inv in Hp as (? & ? & ? & ? & ? & ?). }
    destruct procs as [ps|].
    + split.
      * intros k p Hl.
        apply LoadProxies_lookupByPID_inv in Hl as [Hl|[Hin Hk]];
          [done | | apply wf_emptyFilter].
        split; [done|]. apply Hip.
        apply detected_elem_of in Hin as (proc & ? & ?). eauto.
      * intros a p Hl.
        apply LoadProxies_lookupByTarget_inv in Hl as [Hl|[Hin Hk]];
          [done | | apply wf_emptyFilter].
        split; [done|]. apply Hip.
        apply detected_elem_of in Hin as (proc & ? & ?). eauto.
    + split; intros ? p Hl; done.
  - destruct IH as [IHp IHt]. apply reachable_wf in Hf.
    assert (∀ p, p ∈ detected procs → Ip (target p) ≠ "") as Hip.
    { intros p (proc & _ & Hp)%detected_elem_of.
      by apply extractProxyInfo_inv in Hp as (? & ? & ? & ? & ? & ?). }
    split.
    + intros k p [Hl|[Hin Hk]]%LoadProxies_lookupByPID_inv; auto.
    + intros a p [Hl|[Hin Hk]]%LoadProxies_lookupByTarget_inv; auto.
  - destruct IH as [IHp IHt].
    pose proof (FilterConns_refines f conns) as Hr.
    pose proof Hr as (Hp & Ht & _).
    split.
    + intros k q. unfold lookupByPID. rewrite Hp.
      destruct (proxyByPID f !! k) as [l|] eqn:Hk; [|done]. simpl.
      intros (p & Hl & Hqp & Hqt & _)%(refines_heap_back f _ _ _ Hr).
      rewrite Hqp, Hqt. apply IHp. unfold lookupByPID. by rewrite Hk.
    + intros a q. unfold lookupByTarget. rewrite Ht.
      destruct (proxyByTarget f !! a) as [l|] eqn:Hk; [|done]. simpl.
      intros (p & Hl & Hqp & Hqt & _)%(refines_heap_back f _ _ _ Hr).
      rewrite Hqt. apply IHt. unfold lookupByTarget. by rewrite Hk.
Qed.

Lemma reachable_keyed_witness :
  reachable regLearned ∧
  lookupByTarget regLearned targetA = Some (setIp recA "9.9.9.9") ∧
  target (setIp recA "9.9.9.9") = targetA ∧
  Ip (target (setIp recA "9.9.9.9")) ≠ "".
Proof.
  assert (reachable regLearned) as H by (apply reach_filter, reach_new).
  assert (lookupByTarget regLearned targetA = Some (setIp recA "9.9.9.9"))
    as Hl by (vm_compute; reflexivity).
  split; [exact H|]. split; [exact Hl|].
  destruct (reachable_keyed regLearned H) as [_ Ht].
  exact (Ht targetA _ Hl).
Defined.

Section lastWith.
Context `{Countable K} (key : proxy → K).

Lemma lastWith_None rs k : k ∉ key <$> rs → lastWith key k rs = None.
Proof.
  intros Hk. unfold lastWith. apply last_None.
  induction rs as [|r rs IH]; [done|].
  rewrite fmap_cons in Hk. apply not_elem_of_cons in Hk as [Hne Hk].
  rewrite filter_cons_False by done. by apply IH.
Qed.

Lemma lastWith_Some rs1 r rs2 :
  key r ∉ key <$> rs2 → lastWith key (key r) (rs1 ++ r :: rs2) = Some r.
Proof.
  intros Hk. unfold lastWith.
  rewrite filter_app, filter_cons_True by done.
  apply lastWith_None in Hk. unfold lastWith in Hk.
  apply last_None in Hk. rewrite Hk. apply last_snoc.
Qed.

Lemma lastWith_elem_of rs k r :
  lastWith key k rs = Some r → r ∈ rs ∧ key r = k.
Proof.
  unfold lastWith. intros Hl%last_Some_elem_of.
  apply list_elem_of_filter in Hl. tauto.
Qed.

(** What an index built over a store answers, pointer followed. *)
Lemma indexFrom_deref (h : list proxy) m rs k :
  (∀ l, m !! k = Some l → (l < length h)%nat) →
  indexFrom key m (length h) rs !! k ≫= ((h ++ rs) !!.)
  = match lastWith key k rs with
    | Some r => Some r
    | None => m !! k ≫= (h !!.)
    end.
Proof.
  intros Hwf.
  destruct (decide (k ∈ key <$> rs)) as [Hin|Hnin].
  - apply (last_with_key key) in Hin as (rs1 & r & rs2 & -> & <- & Hn).
    rewrite indexFrom_last, lastWith_Some by done. simpl.
    by rewrite lookup_app_r, Nat.add_comm, Nat.add_sub, lookup_app_r,
      Nat.sub_diag by lia.
  - rewrite indexFrom_notin, lastWith_None by done.
    destruct (m !! k) as [l|] eqn:Hl; [|done]. simpl.
    apply lookup_app_l. by apply Hwf.
Qed.
End lastWith.

Lemma LoadProxies_lookupByPID f procs k :
  wf f →
  lookupByPID (LoadProxies f procs) k
  = match lastWith pid k (detected procs) with
    | Some r => Some r
    | None => lookupByPID f k
    end.
Proof.
  intros [Hwf _]. unfold lookupByPID at 1. rewrite LoadProxies_closed. simpl.
  apply (indexFrom_deref pid). intros l. apply Hwf.
Qed.

Lemma LoadProxies_lookupByTarget f procs a :
  wf f →
  lookupByTarget (LoadProxies f procs) a
  = match lastWith target a (detected procs) with
    | Some r => Some r
    | None => lookupByTarget f a
    end.
Proof.
  intros [_ Hwf]. unfold lookupByTarget at 1. rewrite LoadProxies_closed. simpl.
  apply (indexFrom_deref target). intros l. apply Hwf.
Qed.

Section lastWith_perm.
Context `{Countable K} (key : proxy → K).

(** With distinct keys the order of the snapshot does not matter. *)
Lemma lastWith_Permutation rs rs' k :
  NoDup (key <$> rs) → rs ≡ₚ rs' →
  lastWith key k rs = lastWith key k rs'.
Proof.
  intros Hnd Hperm.
  destruct (decide (k ∈ key <$> rs)) as [Hin|Hnin].
  - apply (last_with_key key) in Hin as (rs1 & r & rs2 & -> & <- & Hn).
    rewrite lastWith_Some by done.
    assert (r ∈ rs') as Hr.
    { rewrite <- Hperm. apply elem_of_app. right. apply list_elem_of_here. }
    apply list_elem_of_split in Hr as (rs1' & rs2' & ->).
    rewrite lastWith_Some; [done|].
    rewrite Hperm, fmap_app, fmap_cons in Hnd.
    apply NoDup_app in Hnd as (_ & _ & Hnd). by apply NoDup_cons in Hnd as [].
  - rewrite !lastWith_None; [done | by rewrite <- Hperm | done].
Qed.
End lastWith_perm.

(** X4: on a registry a program can reach, a lookup after a load answers
    with the record detected from the last process of the snapshot that has
    the key, and, when the snapshot has no such proxy, with what the lookup
    answered before the load. *)
Theorem LoadProxies_lookup f procs :
  reachable f →
  (∀ k, lookupByPID (LoadProxies f procs) k
        = match lastWith pid k (detected procs) with
          | Some r => Some r
          | None => lookupByPID f k
          end) ∧
  (∀ a, lookupByTarget (LoadProxies f procs) a
        = match lastWith target a (detected procs) with
          | Some r => Some r
          | None => lookupByTarget f a
          end).
Proof.
  intros Hf%reachable_wf. split.
  - intros k. by apply LoadProxies_lookupByPID.
  - intros a. by apply LoadProxies_lookupByTarget.
Qed.

Lemma LoadProxies_lookup_witness :
  reachable regLearned ∧
  lookupByPID (LoadProxies regLearned [procB; procC]) 100
  = match lastWith pid 100 (detected [procB; procC]) with
    | Some r => Some r
    | None => lookupByPID regLearned 100
    end.
Proof.
  assert (reachable regLearned) as H by (apply reach_filter, reach_new).
  split; [exact H|].
  destruct (LoadProxies_lookup regLearned [procB; procC] H) as [Hp _].
  exact (Hp 100).
Defined.



(** X6: when the detected proxies of a snapshot have distinct pids and
    distinct targets, the order in which the processes are visited does not
    change what the lookups answer after the load. *)
Theorem LoadProxies_order f procs procs' :
  reachable f → procs ≡ₚ procs' →
  NoDup (pid <$> detected procs) → NoDup (target <$> detected procs) →
  (∀ k, lookupByPID (LoadProxies f procs) k
        = lookupByPID (LoadProxies f procs') k) ∧
  (∀ a, lookupByTarget (LoadProxies f procs) a
        = lookupByTarget (LoadProxies f procs') a).
Proof.
  intros Hf%reachable_wf Hperm Hpids Htargets.
  assert (detected procs ≡ₚ detected procs') as Hd.
  { unfold detected. by rewrite Hperm. }
  split.
  - intros k. rewrite !LoadProxies_lookupByPID by done.
    by rewrite (lastWith_Permutation pid _ _ k Hpids Hd).
  - intros a. rewrite !LoadProxies_lookupByTarget by done.
    by rewrite (lastWith_Permutation target _ _ a Htargets Hd).
Qed.

Lemma LoadProxies_order_witness :
  (reachable regA ∧ [procB; procC] ≡ₚ [procC; procB] ∧
   NoDup (pid <$> detected [procB; procC]) ∧
   NoDup (target <$> detected [procB; procC])) ∧
  lookupByPID (LoadProxies regA [procB; procC]) 300
  = lookupByPID (LoadProxies regA [procC; procB]) 300.
Proof.
  assert (reachable regA) as H1 by apply reach_new.
  assert ([procB; procC] ≡ₚ [procC; procB]) as H2 by apply Permutation_swap.
  assert (NoDup (pid <$> detected [procB; procC])) as H3.
  { change (NoDup [200; 300]). apply NoDup_cons.
    split; [by intros ?%list_elem_of_singleton | apply NoDup_singleton]. }
  assert (NoDup (target <$> detected [procB; procC])) as H4.
  { change (NoDup [target recB; target recC]). apply NoDup_cons.
    split; [by intros ?%list_elem_of_singleton | apply NoDup_singleton]. }
  split; [done|].
  destruct (LoadProxies_order regA _ _ H1 H2 H3 H4) as [Hp _].
  exact (Hp 300).
Defined.

(** X7: a load forgets what was learned about the proxies it detects
    again: whatever the registry knew, after the load the record found
    under the pid, and the one found under the target, of a detected proxy
    has an unknown [ip]. *)
Theorem LoadProxies_forgets_ip f procs p r :
  p ∈ procs → extractProxyInfo p = Some r →
  (∃ q, lookupByPID (LoadProxies f procs) (pid r) = Some q ∧ ip q = "") ∧
  (∃ q, lookupByTarget (LoadProxies f procs) (target r) = Some q ∧ ip q = "").
Proof.
  intros Hp Hr.
  assert (r ∈ detected procs) as Hin by (apply detected_elem_of; eauto).
  split.
  - destruct (last_with_key pid (detected procs) (pid r))
      as (rs1 & q & rs2 & Hd & Hk & Hn); [by apply list_elem_of_fmap_2|].
    exists q. rewrite <- Hk in *.
    destruct (LoadProxies_last_pid f procs rs1 q rs2 Hd Hn) as [Hi Hh].
    split; [unfold lookupByPID; by rewrite Hi|].
    apply (detected_fresh procs). rewrite Hd.
    apply elem_of_app. right. apply list_elem_of_here.
  - destruct (last_with_key target (detected procs) (target r))
      as (rs1 & q & rs2 & Hd & Hk & Hn); [by apply list_elem_of_fmap_2|].
    exists q. rewrite <- Hk in *.
    destruct (LoadProxies_last_target f procs rs1 q rs2 Hd Hn) as [Hi Hh].
    split; [unfold lookupByTarget; by rewrite Hi|].
    apply (detected_fresh procs). rewrite Hd.
    apply elem_of_app. right. apply list_elem_of_here.
Qed.

Lemma LoadProxies_forgets_ip_witness :
  (procA ∈ [procA] ∧ extractProxyInfo procA = Some recA) ∧
  lookupByPID regLearned (pid recA) = Some (setIp recA "9.9.9.9") ∧
  (∃ q, lookupByPID (LoadProxies regLearned [procA]) (pid recA) = Some q ∧
        ip q = "").
Proof.
  assert (procA ∈ [procA]) as H1 by apply list_elem_of_here.
  assert (extractProxyInfo procA = Some recA) as H2 by reflexivity.
  split; [done|]. split; [vm_compute; reflexivity|].
  destruct (LoadProxies_forgets_ip regLearned [procA] procA recA H1 H2)
    as [Hp _].
  exact Hp.
Defined.

(** X8: processes that are not detected as proxies have no effect on a
    load: a snapshot without any proxy leaves the registry as it is, and a
    process that is not a proxy can be taken out of any snapshot. *)
Theorem LoadProxies_skips_others f :
  (∀ procs, (∀ p, p ∈ procs → extractProxyInfo p = None) →
            LoadProxies f procs = f) ∧
  (∀ ps p qs, extractProxyInfo p = None →
              LoadProxies f (ps ++ p :: qs) = LoadProxies f (ps ++ qs)).
Proof.
  split.
  - intros procs. revert f.
    induction procs as [|p procs IH]; intros f Hnone; [done|].
    rewrite LoadProxies_cons. unfold loadOne.
    rewrite (Hnone p) by apply list_elem_of_here.
    apply IH. intros q Hq. apply Hnone. by apply list_elem_of_further.
  - intros ps p qs Hnone. unfold LoadProxies.
    rewrite !foldl_app. simpl. unfold loadOne at 2. by rewrite Hnone.
Qed.

Lemma LoadProxies_skips_others_witness :
  extractProxyInfo (mkProcess 1 ["/sbin/init"]) = None ∧
  LoadProxies regA ([procB] ++ mkProcess 1 ["/sbin/init"] :: [procC])
  = LoadProxies regA ([procB] ++ [procC]).
Proof.
  assert (extractProxyInfo (mkProcess 1 ["/sbin/init"]) = None) as H
    by reflexivity.
  split; [exact H|].
  destruct (LoadProxies_skips_others regA) as [_ Hskip].
  exact (Hskip [procB] _ [procC] H).
Defined.

(** * Further properties of the filter *)

Lemma refines_lookupByTarget_Some f g a p :
  refines f g → lookupByTarget f a = Some p →
  ∃ q, lookupByTarget g a = Some q ∧ (ip p ≠ "" → ip q = ip p).
Proof.
  intros (_ & Ht & _ & Hr). unfold lookupByTarget. rewrite Ht.
  destruct (proxyByTarget f !! a) as [l|]; [|done]. simpl.
  intros (q & Hq & _ & _ & Hip)%Hr. eauto.
Qed.

Lemma refines_lookupByTarget_None f g a :
  refines f g → lookupByTarget f a = None → lookupByTarget g a = None.
Proof.
  intros (_ & Ht & Hn & _). unfold lookupByTarget. rewrite Ht.
  destruct (proxyByTarget f !! a) as [l|]; [|done]. simpl.
  rewrite !lookup_ge_None. lia.
Qed.

Lemma refines_isProxied f g c :
  refines f g → Ip (Laddr c) ≠ "" → Ip (Raddr c) ≠ "" →
  isProxied f c = true → isProxied g c = true.
Proof.
  intros Hr Hl Hrm. unfold isProxied.
  destruct (lookupByTarget f (mkAddr (Ip (Laddr c)) (Port (Laddr c))))
    as [p|] eqn:Hla.
  - destruct (refines_lookupByTarget_Some _ _ _ _ Hr Hla) as (q & -> & Hq).
    rewrite !bool_decide_eq_true. intros Hp. rewrite Hq; congruence.
  - rewrite (refines_lookupByTarget_None _ _ _ Hr Hla).
    destruct (lookupByTarget f (mkAddr (Ip (Raddr c)) (Port (Raddr c))))
      as [p|] eqn:Hra; [|done].
    destruct (refines_lookupByTarget_Some _ _ _ _ Hr Hra) as (q & -> & Hq).
    rewrite !bool_decide_eq_true. intros Hp. rewrite Hq; congruence.
Qed.

Lemma discover_known f c :
  (∀ p, lookupByPID f (cPid c) = Some p → ip p ≠ "") → discover f c = f.
Proof.
  intros Hknown. apply discover_fix. intros l p Hk Hl Hip.
  destruct (Hknown p); [|done]. unfold lookupByPID. by rewrite Hk.
Qed.

(** X9: a pass changes nothing in the registry but the [ip] of records:
    both maps, the number of records, and the [pid] and the [target] of
    every record are after the pass what they were before. *)
Theorem FilterConns_frame f conns :
  proxyByPID (FilterConns f conns).1 = proxyByPID f ∧
  proxyByTarget (FilterConns f conns).1 = proxyByTarget f ∧
  length (heap (FilterConns f conns).1) = length (heap f) ∧
  ∀ l, pid <$> heap (FilterConns f conns).1 !! l = pid <$> heap f !! l ∧
       target <$> heap (FilterConns f conns).1 !! l = target <$> heap f !! l.
Proof.
  pose proof (FilterConns_refines f conns) as Hr.
  pose proof Hr as (Hp & Ht & Hn & Hh).
  split; [done|]. split; [done|]. split; [done|].
  intros l. destruct (heap f !! l) as [p|] eqn:Hl.
  - destruct (Hh l p Hl) as (q & -> & Hqp & Hqt & _). simpl.
    by rewrite Hqp, Hqt.
  - apply lookup_ge_None in Hl.
    rewrite (proj2 (lookup_ge_None _ l)) by lia. done.
Qed.

(** X10: filtering a batch in two parts, one after the other, is filtering
    it in one go: the registry ends the same and the outputs concatenate. *)
Theorem FilterConns_in_parts f xs ys :
  FilterConns f (xs ++ ys)
  = ((FilterConns (FilterConns f xs).1 ys).1,
     (FilterConns f xs).2 ++ (FilterConns (FilterConns f xs).1 ys).2).
Proof. apply FilterConns_app. Qed.

(** X11: the proxy's own connection to its container.  For a record whose
    [ip] is unknown and which both maps name, a connection of the record's
    pid whose remote end is the target, and whose local end is no target,
    sets the [ip] of the record to the local IP and is dropped. *)
Theorem FilterConns_own_outgoing f c l p :
  proxyByPID f !! cPid c = Some l →
  proxyByTarget f !! mkAddr (Ip (Raddr c)) (Port (Raddr c)) = Some l →
  heap f !! l = Some p → ip p = "" →
  target p = mkAddr (Ip (Raddr c)) (Port (Raddr c)) →
  lookupByTarget f (mkAddr (Ip (Laddr c)) (Port (Laddr c))) = None →
  FilterConns f [c]
  = (mkFilter (<[l := setIp p (Ip (Laddr c))]> (heap f))
              (proxyByPID f) (proxyByTarget f), []).
Proof.
  intros Hk Ht Hl Hip Htarget Hla.
  assert (¬ (Ip (Laddr c) = Ip (target p) ∧ Port (Laddr c) = Port (target p)))
    as Hne.
  { rewrite Htarget. simpl. intros [H1 H2].
    unfold lookupByTarget in Hla. rewrite H1, H2, Ht in Hla. simpl in Hla.
    congruence. }
  assert (discover f c
          = mkFilter (<[l := setIp p (Ip (Laddr c))]> (heap f))
                     (proxyByPID f) (proxyByTarget f)) as Hd.
  { unfold discover. rewrite Hk, Hl, (bool_decide_eq_true_2 _ Hip).
    rewrite discoverProxyIP_remote; [done | done | |]; by rewrite Htarget. }
  rewrite FilterConns_single, Hd. f_equal.
  pose proof (discover_refines f c) as Hr. rewrite Hd in Hr.
  unfold isProxied.
  rewrite (refines_lookupByTarget_None _ _ _ Hr Hla).
  unfold lookupByTarget. simpl. rewrite Ht. simpl.
  rewrite list_lookup_insert_eq by (by eapply lookup_lt_Some).
  simpl. by rewrite bool_decide_eq_true_2.
Qed.

Lemma FilterConns_own_outgoing_witness :
  let c := mkConnection 100 (mkAddr "172.17.0.1" 40000) targetA in
  (proxyByPID regA !! cPid c = Some 0%nat ∧
   proxyByTarget regA !! mkAddr (Ip (Raddr c)) (Port (Raddr c)) = Some 0%nat ∧
   heap regA !! 0%nat = Some recA ∧ ip recA = "" ∧
   target recA = mkAddr (Ip (Raddr c)) (Port (Raddr c)) ∧
   lookupByTarget regA (mkAddr (Ip (Laddr c)) (Port (Laddr c))) = None) ∧
  FilterConns regA [c]
  = (mkFilter (<[0%nat := setIp recA (Ip (Laddr c))]> (heap regA))
              (proxyByPID regA) (proxyByTarget regA), []).
Proof.
  intros c.
  assert (proxyByPID regA !! cPid c = Some 0%nat) as H1
    by (vm_compute; reflexivity).
  assert (proxyByTarget regA !! mkAddr (Ip (Raddr c)) (Port (Raddr c))
          = Some 0%nat) as H2 by (vm_compute; reflexivity).
  assert (heap regA !! 0%nat = Some recA) as H3 by reflexivity.
  assert (lookupByTarget regA (mkAddr (Ip (Laddr c)) (Port (Laddr c))) = None)
    as H4 by (vm_compute; reflexivity).
  split; [by repeat split|].
  exact (FilterConns_own_outgoing regA c 0%nat recA H1 H2 H3 eq_refl eq_refl H4).
Defined.

(** X12: what a pass learns never makes a proxied connection unproxied:
    a connection with non-empty endpoint IPs that is classified as proxied
    is still classified as proxied after any pass. *)
Theorem isProxied_stays f conns c :
  Ip (Laddr c) ≠ "" → Ip (Raddr c) ≠ "" →
  isProxied f c = true → isProxied (FilterConns f conns).1 c = true.
Proof. intros Hl Hr. apply refines_isProxied; auto using FilterConns_refines. Qed.

Lemma isProxied_stays_witness :
  let c := mkConnection 7 targetA (mkAddr "9.9.9.9" 5) in
  (Ip (Laddr c) ≠ "" ∧ Ip (Raddr c) ≠ "" ∧ isProxied regLearned c = true) ∧
  isProxied (FilterConns regLearned [connForeign; connOwn]).1 c = true.
Proof.
  intros c.
  assert (Ip (Laddr c) ≠ "") as H1 by discriminate.
  assert (Ip (Raddr c) ≠ "") as H2 by discriminate.
  assert (isProxied regLearned c = true) as H3 by (vm_compute; reflexivity).
  split; [done|].
  exact (isProxied_stays regLearned [connForeign; connOwn] c H1 H2 H3).
Defined.

(** X13: when at most one end of a connection is a target of the
    registry, the classification does not depend on the side from which
    the connection is seen. *)
Theorem isProxied_swapEnds f c :
  lookupByTarget f (mkAddr (Ip (Laddr c)) (Port (Laddr c))) = None ∨
  lookupByTarget f (mkAddr (Ip (Raddr c)) (Port (Raddr c))) = None →
  isProxied f (swapEnds c) = isProxied f c.
Proof.
  unfold isProxied, swapEnds. simpl. intros [H|H]; rewrite H.
  - by destruct (lookupByTarget f (mkAddr (Ip (Raddr c)) (Port (Raddr c)))).
  - by destruct (lookupByTarget f (mkAddr (Ip (Laddr c)) (Port (Laddr c)))).
Qed.

Lemma isProxied_swapEnds_witness :
  let c := mkConnection 7 (mkAddr "9.9.9.9" 5) targetA in
  lookupByTarget regLearned (mkAddr (Ip (Laddr c)) (Port (Laddr c))) = None ∧
  isProxied regLearned (swapEnds c) = isProxied regLearned c ∧
  isProxied regLearned c = true.
Proof.
  intros c.
  assert (lookupByTarget regLearned (mkAddr (Ip (Laddr c)) (Port (Laddr c)))
          = None) as H by (vm_compute; reflexivity).
  split; [exact H|]. split; [|vm_compute; reflexivity].
  exact (isProxied_swapEnds regLearned c (or_introl H)).
Defined.

Lemma discoverProxyIP_cases p c :
  discoverProxyIP p c = p ∨
  (Ip (Laddr c) = Ip (target p) ∧ Port (Laddr c) = Port (target p) ∧
   discoverProxyIP p c = setIp p (Ip (Raddr c))) ∨
  (Ip (Raddr c) = Ip (target p) ∧ Port (Raddr c) = Port (target p) ∧
   discoverProxyIP p c = setIp p (Ip (Laddr c))).
Proof.
  unfold discoverProxyIP.
  destruct (bool_decide (Ip (Laddr c) = Ip (target p))) eqn:H1;
    destruct (bool_decide (Port (Laddr c) = Port (target p))) eqn:H2; simpl.
  1: { apply bool_decide_eq_true in H1, H2. auto. }
  all: destruct (bool_decide (Ip (Raddr c) = Ip (target p))) eqn:H3;
    destruct (bool_decide (Port (Raddr c) = Port (target p))) eqn:H4; simpl;
    auto.
  all: apply bool_decide_eq_true in H3, H4; auto.
Qed.

Lemma FilterConns_kept_final f conns c :
  c ∈ conns → Ip (Laddr c) ≠ "" → Ip (Raddr c) ≠ "" →
  isProxied (FilterConns f conns).1 c = false →
  c ∈ (FilterConns f conns).2.
Proof.
  intros Hin Hl Hr. revert f.
  induction conns as [|c0 rest IH]; intros f; [by apply elem_of_nil in Hin|].
  rewrite FilterConns_cons. simpl. intros Hfinal.
  apply elem_of_cons in Hin as [<-|Hin].
  - destruct (isProxied (discover f c) c) eqn:Hc.
    + apply (refines_isProxied _ (FilterConns (discover f c) rest).1) in Hc;
        [congruence | apply FilterConns_refines | done | done].
    + apply list_elem_of_here.
  - specialize (IH Hin _ Hfinal).
    destruct (isProxied (discover f c0) c0); [done|].
    by apply list_elem_of_further.
Qed.

(** X14: when every record a batch can reach by pid has a known [ip], a
    pass over the batch leaves the registry as it is, its output is the
    connections that are not proxied in that registry, and a pass over the
    output returns the output. *)
Theorem FilterConns_all_known f conns :
  (∀ c p, c ∈ conns → lookupByPID f (cPid c) = Some p → ip p ≠ "") →
  FilterConns f conns = (f, kept f conns) ∧
  FilterConns f (kept f conns) = (f, kept f conns).
Proof.
  intros Hknown.
  assert (∀ c, c ∈ conns → discover f c = f) as Hd.
  { intros c Hc. apply discover_known. intros p. by apply Hknown. }
  split; [by apply FilterConns_pure|].
  rewrite FilterConns_pure, kept_idemp; [done|].
  intros c Hc. by apply Hd, kept_elem_of with f.
Qed.

Lemma FilterConns_all_known_witness :
  let batch := [mkConnection 100 targetA (mkAddr "9.9.9.9" 5);
                mkConnection 8 targetA (mkAddr "8.8.8.8" 443)] in
  (∀ c p, c ∈ batch → lookupByPID regLearned (cPid c) = Some p → ip p ≠ "") ∧
  FilterConns regLearned batch
  = (regLearned, [mkConnection 8 targetA (mkAddr "8.8.8.8" 443)]).
Proof.
  intros batch.
  assert (∀ c p, c ∈ batch → lookupByPID regLearned (cPid c) = Some p →
                 ip p ≠ "") as H.
  { intros c p Hc. unfold batch in Hc.
    repeat (apply elem_of_cons in Hc as [->|Hc]);
      [| |by apply elem_of_nil in Hc]; vm_compute; intros [= <-]; discriminate. }
  split; [exact H|].
  destruct (FilterConns_all_known regLearned batch H) as [Hpure _].
  exact Hpure.
Defined.

(** X15: running a pass again over the same batch changes the registry no
    further, keeps exactly the connections not proxied in it, and keeps no
    connection with non-empty endpoint IPs that the first pass dropped. *)
Theorem FilterConns_replay f conns :
  FilterConns (FilterConns f conns).1 conns
  = ((FilterConns f conns).1, kept (FilterConns f conns).1 conns) ∧
  ∀ c, c ∈ kept (FilterConns f conns).1 conns →
       Ip (Laddr c) ≠ "" → Ip (Raddr c) ≠ "" →
       c ∈ (FilterConns f conns).2.
Proof.
  split.
  - apply FilterConns_pure. intros c. apply FilterConns_stable.
  - intros c Hc Hl Hr. unfold kept in Hc.
    apply list_elem_of_filter in Hc as [Hnp Hin].
    by apply FilterConns_kept_final.
Qed.

Lemma FilterConns_replay_witness :
  let c := mkConnection 8 targetA (mkAddr "8.8.8.8" 443) in
  (c ∈ kept (FilterConns regA [connOwn; c]).1 [connOwn; c] ∧
   Ip (Laddr c) ≠ "" ∧ Ip (Raddr c) ≠ "") ∧
  c ∈ (FilterConns regA [connOwn; c]).2 ∧
  FilterConns (FilterConns regA [connOwn; c]).1 [connOwn; c]
  = ((FilterConns regA [connOwn; c]).1,
     kept (FilterConns regA [connOwn; c]).1 [connOwn; c]).
Proof.
  intros c.
  assert (c ∈ kept (FilterConns regA [connOwn; c]).1 [connOwn; c]) as H1.
  { unfold kept. apply list_elem_of_filter.
    split; [vm_compute; reflexivity|].
    apply list_elem_of_further, list_elem_of_here. }
  assert (Ip (Laddr c) ≠ "") as H2 by discriminate.
  assert (Ip (Raddr c) ≠ "") as H3 by discriminate.
  destruct (FilterConns_replay regA [connOwn; c]) as [Hfix Hkept].
  split; [done|]. split; [exact (Hkept c H1 H2 H3) | exact Hfix].
Defined.

(** X16: a pass never invents an address.  When the [ip] of a record is
    not after a pass what it was before, it was unknown before, and it is
    the IP of one end of a connection of the batch that belongs to a pid
    filed under this record and has its other end on the record's
    target. *)
Theorem FilterConns_learned_from f conns l p q :
  heap f !! l = Some p → heap (FilterConns f conns).1 !! l = Some q →
  ip q ≠ ip p →
  ip p = "" ∧
  ∃ c, c ∈ conns ∧ proxyByPID f !! cPid c = Some l ∧
       ((Ip (Laddr c) = Ip (target p) ∧ Port (Laddr c) = Port (target p) ∧
         ip q = Ip (Raddr c)) ∨
        (Ip (Raddr c) = Ip (target p) ∧ Port (Raddr c) = Port (target p) ∧
         ip q = Ip (Laddr c))).
Proof.
  revert f p. induction conns as [|c0 rest IH]; intros f p Hp Hq Hne.
  - simpl in Hq. congruence.
  - rewrite FilterConns_cons in Hq. simpl in Hq.
    pose proof (discover_lookup f c0 l p Hp) as Hg.
    destruct (decide (ip q = ip (if bool_decide (proxyByPID f !! cPid c0 = Some l)
                                    && bool_decide (ip p = "")
                                 then discoverProxyIP p c0 else p)))
      as [Heq|Hchg].
    + destruct (bool_decide (proxyByPID f !! cPid c0 = Some l)) eqn:Hk;
        [|simpl in Heq; congruence].
      destruct (bool_decide (ip p = "")) eqn:Hip; [|simpl in Heq; congruence].
      simpl in Heq. apply bool_decide_eq_true in Hk, Hip.
      split; [done|]. exists c0. split; [apply list_elem_of_here|].
      split; [done|].
      destruct (discoverProxyIP_cases p c0) as [E|[(H1 & H2 & E)|(H1 & H2 & E)]];
        rewrite E in Heq; simpl in Heq; [congruence | left | right]; done.
    + destruct (IH _ _ Hg Hq Hchg) as (Hip' & c & Hc & Hk & Hend).
      rewrite discover_proxyByPID in Hk.
      assert (ip p = "" ∧
              target (if bool_decide (proxyByPID f !! cPid c0 = Some l)
                         && bool_decide (ip p = "")
                      then discoverProxyIP p c0 else p) = target p)
        as [Hip Ht].
      { destruct (bool_decide (proxyByPID f !! cPid c0 = Some l)); simpl in *;
          [|done].
        case_bool_decide; [|done]. split; [done|]. apply discoverProxyIP_target. }
      rewrite Ht in Hend. split; [done|].
      exists c. split; [by apply list_elem_of_further | done].
Qed.

Lemma FilterConns_learned_from_witness :
  (heap regA !! 0%nat = Some recA ∧
   heap (FilterConns regA [connForeign; connOwn]).1 !! 0%nat
     = Some (setIp recA "9.9.9.9") ∧
   ip (setIp recA "9.9.9.9") ≠ ip recA) ∧
  ip recA = "" ∧
  ∃ c, c ∈ [connForeign; connOwn] ∧ proxyByPID regA !! cPid c = Some 0%nat ∧
       ((Ip (Laddr c) = Ip (target recA) ∧ Port (Laddr c) = Port (target recA) ∧
         ip (setIp recA "9.9.9.9") = Ip (Raddr c)) ∨
        (Ip (Raddr c) = Ip (target recA) ∧ Port (Raddr c) = Port (target recA) ∧
         ip (setIp recA "9.9.9.9") = Ip (Laddr c))).
Proof.
  assert (heap regA !! 0%nat = Some recA) as H1 by reflexivity.
  assert (heap (FilterConns regA [connForeign; connOwn]).1 !! 0%nat
          = Some (setIp recA "9.9.9.9")) as H2 by (vm_compute; reflexivity).
  assert (ip (setIp recA "9.9.9.9") ≠ ip recA) as H3 by discriminate.
  split; [done|].
  exact (FilterConns_learned_from regA _ 0%nat recA _ H1 H2 H3).
Defined.

(** * Further properties of the detection *)



(** The target IP of the record is the value of the last [-container-ip]
    flag. *)
Lemma scanArgs_last_ip cmdline n i pr r j v :
  scanArgs cmdline n i pr = Some r →
  (i ≤ j < i + n)%nat →
  cmdline !! j = Some "-container-ip" → cmdline !! S j = Some v →
  (∀ j', (j < j' < i + n)%nat → cmdline !! j' ≠ Some "-container-ip") →
  Ip (target r) = v.
Proof.
  revert i pr. induction n as [|n IH]; intros i pr Hr Hj Hflag Hv Hlast; [lia|].
  simpl in Hr.
  destruct (decide (j = i)) as [->|Hne].
  - rewrite Hflag, Hv in Hr. rewrite decide_True in Hr by done.
    apply scanArgs_no_ip in Hr; [done|].
    intros j' Hj'. apply Hlast. lia.
  - apply lookup_lt_Some in Hv as Hlen.
    destruct (cmdline !! i) eqn:Hi; [|apply lookup_ge_None in Hi; lia].
    destruct (cmdline !! S i) eqn:Hsi; [|apply lookup_ge_None in Hsi; lia].
    revert Hr; repeat case_match; try done; intros Hr.
    all: eapply IH; eauto; try lia.
    all: intros j' Hj'; apply Hlast; lia.
Qed.

(** The loop runs to its end when every port value parses. *)
Lemma scanArgs_total cmdline n i pr :
  (∀ j v, (i ≤ j < i + n)%nat → cmdline !! j = Some "-container-port" →
          cmdline !! S j = Some v → is_Some (Atoi v)) →
  is_Some (scanArgs cmdline n i pr).
Proof.
  revert i pr. induction n as [|n IH]; intros i pr Hparse; simpl; [done|].
  destruct (cmdline !! i) as [a|] eqn:Hi; [|done].
  destruct (cmdline !! S i) as [v|] eqn:Hv; [|done].
  assert (∀ pr', is_Some (scanArgs cmdline n (S i) pr')) as Hrest.
  { intros pr'. apply IH. intros j w Hj. apply Hparse. lia. }
  case_decide; [done|]. case_decide as Ha; [|done]. subst a.
  destruct (Hparse i v) as [m ->]; [lia | done | done | done].
Qed.



(** X18: when a command line has several [-container-ip] flags, the record
    takes the value that follows the last one. *)
Theorem extractProxyInfo_last_ip p r j v :
  extractProxyInfo p = Some r →
  Cmdline p !! j = Some "-container-ip" → Cmdline p !! S j = Some v →
  (∀ j', (j < j')%nat → is_Some (Cmdline p !! S j') →
         Cmdline p !! j' ≠ Some "-container-ip") →
  Ip (target r) = v.
Proof.
  intros (arg0 & rest & Hc & He & Hs & Hip)%extractProxyInfo_inv Hj Hv Hlast.
  apply lookup_lt_Some in Hv as Hlen.
  eapply scanArgs_last_ip; eauto; [lia|].
  intros j' Hj'. apply Hlast; [lia|]. apply lookup_lt_is_Some. lia.
Qed.

Lemma extractProxyInfo_last_ip_witness :
  let p := mkProcess 1 ["docker-proxy"; "-container-ip"; "10.0.0.5";
                        "-container-ip"; "10.0.0.9"] in
  extractProxyInfo p = Some (mkProxy 1 "" (mkAddr "10.0.0.9" 0)) ∧
  Ip (mkAddr "10.0.0.9" 0) = "10.0.0.9".
Proof.
  intros p.
  assert (extractProxyInfo p = Some (mkProxy 1 "" (mkAddr "10.0.0.9" 0))) as H
    by reflexivity.
  split; [exact H|].
  apply (extractProxyInfo_last_ip p _ 3%nat "10.0.0.9" H);
    [reflexivity | reflexivity |].
  intros j' Hj' [w Hw]. apply lookup_lt_Some in Hw. simpl in Hw. lia.
Defined.

(** X19: a command line without a [-container-port] flag that has a value
    is still detected when its target IP is set; the port of the record is
    then 0. *)
Theorem extractProxyInfo_no_port p r :
  extractProxyInfo p = Some r →
  (∀ j, is_Some (Cmdline p !! S j) →
        Cmdline p !! j ≠ Some "-container-port") →
  Port (target r) = 0.
Proof.
  intros (arg0 & rest & Hc & He & Hs & Hip)%extractProxyInfo_inv Hno.
  apply scanArgs_no_port in Hs; [done|].
  intros j Hj. apply Hno. apply lookup_lt_is_Some. lia.
Qed.

Lemma extractProxyInfo_no_port_witness :
  let p := mkProcess 1 ["docker-proxy"; "-container-ip"; "10.0.0.5";
                        "-container-port"] in
  extractProxyInfo p = Some (mkProxy 1 "" (mkAddr "10.0.0.5" 0)) ∧
  Port (mkAddr "10.0.0.5" 0) = 0.
Proof.
  intros p.
  assert (extractProxyInfo p = Some (mkProxy 1 "" (mkAddr "10.0.0.5" 0))) as H
    by reflexivity.
  split; [exact H|].
  apply (extractProxyInfo_no_port p _ H).
  intros j [w Hw] Hj. apply lookup_lt_Some in Hw as Hlen.
  do 4 (destruct j as [|j]; [simpl in Hj, Hlen; try discriminate; lia|]).
  simpl in Hj. discriminate.
Defined.

(** X20: detection succeeds whenever the first argument ends with
    [docker-proxy], every value of a [-container-port] flag parses, and the
    value of the last [-container-ip] flag is not empty; the record then
    carries the pid of the process and that IP. *)
Theorem extractProxyInfo_complete p arg0 rest j v :
  Cmdline p = arg0 :: rest →
  (∃ dir, arg0 = dir +:+ "docker-proxy") →
  (∀ i w, Cmdline p !! i = Some "-container-port" →
          Cmdline p !! S i = Some w → is_Some (Atoi w)) →
  Cmdline p !! j = Some "-container-ip" → Cmdline p !! S j = Some v →
  (∀ j', (j < j')%nat → is_Some (Cmdline p !! S j') →
         Cmdline p !! j' ≠ Some "-container-ip") →
  v ≠ "" →
  ∃ r, extractProxyInfo p = Some r ∧ pid r = pPid p ∧ ip r = "" ∧
       Ip (target r) = v.
Proof.
  intros Hc He%EndsWith_spec Hparse Hj Hv Hlast Hne.
  apply lookup_lt_Some in Hv as Hlen.
  destruct (scanArgs_total (Cmdline p) (length (Cmdline p) - 1) 0
              (mkProxy (pPid p) "" (mkAddr "" 0))) as [r Hr].
  { intros i w _. apply Hparse. }
  assert (Ip (target r) = v) as Hip.
  { eapply scanArgs_last_ip; eauto; [lia|].
    intros j' Hj'. apply Hlast; [lia|]. apply lookup_lt_is_Some. lia. }
  exists r. destruct (scanArgs_pid_ip _ _ _ _ _ Hr) as [Hpid Hi].
  split; [|done].
  rewrite Hc in Hr.
  unfold extractProxyInfo. rewrite Hc, He. cbn [negb].
  rewrite Hr. unfold ipIsZero. rewrite orb_diag.
  rewrite bool_decide_eq_false_2; [done | congruence].
Qed.

Lemma extractProxyInfo_complete_witness :
  let p := mkProcess 9 ["/opt/docker-proxy"; "-proto"; "tcp"; "-container-ip";
                        "172.17.0.2"; "-container-port"; "+0443"] in
  ∃ r, extractProxyInfo p = Some r ∧ pid r = pPid p ∧ ip r = "" ∧
       Ip (target r) = "172.17.0.2".
Proof.
  intros p.
  apply (extractProxyInfo_complete p "/opt/docker-proxy"
           (tail (Cmdline p)) 3%nat "172.17.0.2").
  - reflexivity.
  - by exists "/opt/".
  - intros i w Hi Hw.
    do 7 (destruct i as [|i]; [simpl in Hi, Hw; simplify_eq; try by eexists|]).
    simpl in Hi. discriminate.
  - reflexivity.
  - reflexivity.
  - intros j' Hj' [w Hw] Hflag.
    do 7 (destruct j' as [|j']; [simpl in Hflag; simplify_eq; lia|]).
    simpl in Hflag. discriminate.
  - discriminate.
Defined.

(** * Connections away from every target *)

Lemma isProxied_no_target f c :
  lookupByTarget f (mkAddr (Ip (Laddr c)) (Port (Laddr c))) = None →
  lookupByTarget f (mkAddr (Ip (Raddr c)) (Port (Raddr c))) = None →
  isProxied f c = false.
Proof. intros Hl Hr. unfold isProxied. by rewrite Hl, Hr. Qed.

(** X21: a batch in which no connection has an end filed in the target
    index passes a pass whole and in order, whatever the pid index holds
    and whatever the pass learns on the way. *)
Theorem FilterConns_no_target f conns :
  (∀ c, c ∈ conns →
     lookupByTarget f (mkAddr (Ip (Laddr c)) (Port (Laddr c))) = None ∧
     lookupByTarget f (mkAddr (Ip (Raddr c)) (Port (Raddr c))) = None) →
  (FilterConns f conns).2 = conns.
Proof.
  revert f. induction conns as [|c rest IH]; intros f Hno; [done|].
  rewrite FilterConns_cons. simpl.
  pose proof (discover_refines f c) as Hr.
  destruct (Hno c) as [Hl Hrm]; [apply list_elem_of_here|].
  rewrite isProxied_no_target by (by eapply refines_lookupByTarget_None).
  f_equal. apply IH. intros c' Hc'.
  destruct (Hno c') as [Hl' Hrm']; [by apply list_elem_of_further|].
  split; by eapply refines_lookupByTarget_None.
Qed.

Lemma FilterConns_no_target_witness :
  let batch := [mkConnection 100 (mkAddr "10.0.0.7" 80) (mkAddr "1.1.1.1" 9);
                mkConnection 5 (mkAddr "10.0.0.5" 81) (mkAddr "" 0)] in
  (∀ c, c ∈ batch →
     lookupByTarget regA (mkAddr (Ip (Laddr c)) (Port (Laddr c))) = None ∧
     lookupByTarget regA (mkAddr (Ip (Raddr c)) (Port (Raddr c))) = None) ∧
  (FilterConns regA batch).2 = batch.
Proof.
  intros batch.
  assert (∀ c, c ∈ batch →
     lookupByTarget regA (mkAddr (Ip (Laddr c)) (Port (Laddr c))) = None ∧
     lookupByTarget regA (mkAddr (Ip (Raddr c)) (Port (Raddr c))) = None) as H.
  { intros c Hc. unfold batch in Hc.
    repeat (apply elem_of_cons in Hc as [->|Hc]);
      [| |by apply elem_of_nil in Hc]; split; vm_compute; reflexivity. }
  split; [exact H|].
  exact (FilterConns_no_target regA batch H).
Defined.
